(** * Block-at-a-time sequence generators and the array cursor pool

    A shallow embedding of two generated Go files of the storage engine:

    - [pkg/data/gen/values_sequence.gen.go]: the five
      [time<T>ValuesSequence] types, which pair a timestamp generator with a
      value generator and emit a fixed number of points in blocks of at most
      [tsdb.DefaultMaxPointsPerBlock] points;
    - the [tsm1] array cursor iterator ([array_cursor_iterator.gen.go]), whose
      five [build<T>ArrayCursor] methods hand out one pooled merge cursor per
      value type and scan direction.

    Go values are modelled as follows.  An [int] is a [Z]; the only
    arithmetic on it here is [min] and a subtraction [n - c] with
    [0 < c <= n], which cannot leave the 64-bit range, so no wrap-around
    appears.  A slice is its visible elements together with the rest of its
    backing array, so that re-slicing [s[:c]] can shrink and re-grow the
    logical length within the capacity; re-slicing beyond the capacity is a
    run-time panic, modelled by [None].  A pointer is a location in a heap of
    objects.  The two generators of a sequence are separate objects, each
    with a state of its own.

    The definitions come first, package by package; the theorems follow. *)

From Stdlib Require Import ZArith Lia Floats.
From stdpp Require Import base option list gmap strings.

(** ** Package [models]: the field type tags *)

Module models.

Inductive FieldType : Set :=
| Integer | Float | Boolean | String | Empty | Unsigned.

End models.

(** ** Go slices *)

Module slices.
Section Slice.
Context {A : Type}.

(** [elems] is what indexing and [len] see; [spare] is the tail of the
    backing array between [len] and [cap]. *)
Record slice : Type := Slice { elems : list A; spare : list A }.

Definition len (s : slice) : Z := Z.of_nat (length (elems s)).
Definition cap (s : slice) : Z :=
  Z.of_nat (length (elems s) + length (spare s)).

(** [make([]A, sz)]: [sz] zero values, capacity [sz]. *)
Definition make (zero : A) (sz : Z) : slice :=
  Slice (replicate (Z.to_nat sz) zero) [].

(** [s[:c]]: panics unless [0 <= c <= cap(s)]; otherwise the first [c]
    cells of the backing array, whatever they hold. *)
Definition slice_to (s : slice) (c : Z) : option slice :=
  if ((0 <=? c) && (c <=? cap s))%Z then
    let backing := elems s ++ spare s in
    Some (Slice (take (Z.to_nat c) backing) (drop (Z.to_nat c) backing))
  else None.

(** The effect, on the caller's slice, of a callee that received the slice
    by value and assigned [out] to its cells: the cells change, the header
    (length and capacity) cannot. *)
Definition store (s : slice) (out : list A) : slice :=
  Slice out (spare s).

End Slice.
Arguments slice : clear implicits.
End slices.
Import slices.

(** ** Package [gen]: time values sequences *)

Module TimestampSequence.
(** [interface { Reset(); Write(ts []int64) }] over an implementation with
    state [S].  [Write] sees the cells of the slice it is given and returns
    the cells it leaves behind; it cannot change their number. *)
Class t (S : Type) : Type := {
  Reset : S → S;
  Write : S → list Z → S * list Z;
  Write_length : ∀ s v, length (Write s v).2 = length v
}.
End TimestampSequence.

Module ValuesSequence.
(** [interface { Reset(); Write(v []T) }], the shape shared by
    [FloatValuesSequence], [IntegerValuesSequence],
    [UnsignedValuesSequence], [StringValuesSequence] and
    [BooleanValuesSequence]. *)
Class t (V S : Type) : Type := {
  Reset : S → S;
  Write : S → list V → S * list V;
  Write_length : ∀ s v, length (Write s v).2 = length v
}.
End ValuesSequence.

Module gen.

(** The file is generated from one template, instantiated at five value
    types.  [kind] is the template parameter; [valueOf] is the Go element
    type, [zeroOf] its zero value and [fieldTypeOf] the tag that
    [ValueType] returns. *)
Inductive kind : Set := KFloat | KInteger | KUnsigned | KString | KBoolean.

Definition valueOf (k : kind) : Type :=
  match k with
  | KFloat => PrimFloat.float
  | KInteger => Z
  | KUnsigned => N
  | KString => string
  | KBoolean => bool
  end.

Definition zeroOf (k : kind) : valueOf k :=
  match k with
  | KFloat => 0%float
  | KInteger => 0%Z
  | KUnsigned => 0%N
  | KString => EmptyString
  | KBoolean => false
  end.

Definition fieldTypeOf (k : kind) : models.FieldType :=
  match k with
  | KFloat => models.Float
  | KInteger => models.Integer
  | KUnsigned => models.Unsigned
  | KString => models.String
  | KBoolean => models.Boolean
  end.

Section TimeValuesSequence.
Open Scope Z_scope.

Context (k : kind) {TS VS : Type}.
Context {TSeq : TimestampSequence.t TS} {VSeq : ValuesSequence.t (valueOf k) VS}.

(** [tsdb.DefaultMaxPointsPerBlock] is declared outside these files; it is
    taken as a parameter. *)
Context (DefaultMaxPointsPerBlock : Z).

(** [floatArray], [integerArray], ...: a pair of slices. *)
Record typedArray : Type := TypedArray {
  Timestamps : slice Z;
  Values_ : slice (valueOf k)
}.

(** Modelled from the spec: [newFloatArrayLen] (and its four siblings) is
    not among these files.  By its name and by the spec's Typed Array
    ("two equal-length ordered sequences", "capacity may exceed logical
    length") it allocates both halves with [sz] zero cells. *)
Definition newArrayLen (sz : Z) : typedArray :=
  TypedArray (make 0 sz) (make (zeroOf k) sz).

Record timeValuesSequence : Type := TimeValuesSequence {
  vals : typedArray;
  ts : TS;
  vs : VS;
  count : Z;
  n : Z
}.

Definition NewTimeValuesSequence (count : Z) (ts : TS) (vs : VS)
  : timeValuesSequence :=
  {| vals := newArrayLen DefaultMaxPointsPerBlock;
     ts := ts;
     vs := vs;
     count := count;
     n := count |}.

Definition Reset (s : timeValuesSequence) : timeValuesSequence :=
  {| vals := vals s;
     ts := TimestampSequence.Reset (ts s);
     vs := ValuesSequence.Reset (vs s);
     count := count s;
     n := count s |}.

(** [None] is a run-time panic of one of the two re-slicings. *)
Definition Next (s : timeValuesSequence)
  : option (bool * timeValuesSequence) :=
  if 0 <? n s then
    let c := Z.min (n s) DefaultMaxPointsPerBlock in
    let n' := n s - c in
    tsl ← slice_to (Timestamps (vals s)) c;
    vsl ← slice_to (Values_ (vals s)) c;
    let '(ts', tout) := TimestampSequence.Write (ts s) (elems tsl) in
    let '(vs', vout) := ValuesSequence.Write (vs s) (elems vsl) in
    Some (true,
          {| vals := TypedArray (store tsl tout) (store vsl vout);
             ts := ts';
             vs := vs';
             count := count s;
             n := n' |})
  else Some (false, s).

(** [Values] returns a pointer to the internal array: the caller reads the
    array as it is at the time of the read. *)
Definition Values (s : timeValuesSequence) : typedArray := vals s.

Definition ValueType (s : timeValuesSequence) : models.FieldType :=
  fieldTypeOf k.

(** What a reader of the array sees: the timestamps and the values up to
    the logical length. *)
Definition block : Type := list Z * list (valueOf k).
Definition view (a : typedArray) : block :=
  (elems (Timestamps a), elems (Values_ a)).
Definition block_len (b : block) : Z := Z.of_nat (length b.1).
Definition lengths (bs : list block) : list Z := block_len <$> bs.

(** *** Drivers *)

(** The operations of the [TimeValuesSequence] interface and what each
    returns to its caller. *)
Inductive op : Set := OReset | ONext | OValues | OValueType.

Inductive obs : Type :=
| RUnit
| RBool (b : bool)
| RValues (b : block)
| RType (t : models.FieldType).

Definition step (o : op) (s : timeValuesSequence)
  : option (obs * timeValuesSequence) :=
  match o with
  | OReset => Some (RUnit, Reset s)
  | ONext => '(b, s') ← Next s; Some (RBool b, s')
  | OValues => Some (RValues (view (Values s)), s)
  | OValueType => Some (RType (ValueType s), s)
  end.

Fixpoint run (ops : list op) (s : timeValuesSequence)
  : option (list obs * timeValuesSequence) :=
  match ops with
  | [] => Some ([], s)
  | o :: ops =>
      '(r, s1) ← step o s;
      '(rs, s2) ← run ops s1;
      Some (r :: rs, s2)
  end.

(** The caller's loop [for s.Next() { use(s.Values()) }], with a bound on
    the number of iterations: the blocks read, and the state in which
    [Next] returned false.  [None] when the bound is too small or [Next]
    panics. *)
Fixpoint drain (fuel : nat) (s : timeValuesSequence)
  : option (list block * timeValuesSequence) :=
  match fuel with
  | O => None
  | S fuel =>
      match Next s with
      | None => None
      | Some (false, s') => Some ([], s')
      | Some (true, s') =>
          '(bs, s'') ← drain fuel s';
          Some (view (Values s') :: bs, s'')
      end
  end.

(** *** Specification vocabulary *)

(** Both halves of the array still have the capacity they were allocated
    with. *)
Definition wf (s : timeValuesSequence) : Prop :=
  cap (Timestamps (vals s)) = DefaultMaxPointsPerBlock
  ∧ cap (Values_ (vals s)) = DefaultMaxPointsPerBlock.

(** [ceil (a / b)] for [0 < b]. *)
Definition ceil_div (a b : Z) : Z := (a + b - 1) / b.

Definition sumZ (l : list Z) : Z := foldr Z.add 0 l.

(** The block lengths the spec announces for a count [c] and a bound [b]:
    [c / b] full blocks, then the remainder if there is one. *)
Definition block_sizes (c b : Z) : list Z :=
  replicate (Z.to_nat (c / b)) b ++ (if c mod b =? 0 then [] else [c mod b]).

(** Every [RBool] in a list of results is [false]. *)
Definition never_true (rs : list obs) : Prop := RBool true ∉ rs.

(** The states a caller can bring a sequence to: construction followed by
    any calls of the interface. *)
Definition reachable (s : timeValuesSequence) : Prop :=
  ∃ c t0 v0 ops rs, run ops (NewTimeValuesSequence c t0 v0) = Some (rs, s).

(** What each operation returns in an exhausted state [s]. *)
Definition exhausted_obs (s : timeValuesSequence) (o : op) : obs :=
  match o with
  | OReset => RUnit
  | ONext => RBool false
  | OValues => RValues (view (vals s))
  | OValueType => RType (fieldTypeOf k)
  end.

(** [Write] assigns every cell of the slice it is given, whatever the cells
    held before: its effect depends on the number of cells only. *)
Definition overwrites : Prop :=
  (∀ (st : TS) v1 v2, length v1 = length v2 →
     TimestampSequence.Write st v1 = TimestampSequence.Write st v2)
  ∧ (∀ (st : VS) v1 v2, length v1 = length v2 →
       ValuesSequence.Write st v1 = ValuesSequence.Write st v2).


(** Two sequences that differ at most in the contents of their arrays. *)
Definition sim (s1 s2 : timeValuesSequence) : Prop :=
  ts s1 = ts s2 ∧ vs s1 = vs s2 ∧ count s1 = count s2 ∧ n s1 = n s2
  ∧ wf s1 ∧ wf s2.

(** The results with the arrays read by [Values] blanked out. *)
Definition mask (r : obs) : obs :=
  match r with RValues _ => RUnit | _ => r end.

(** The results of the calls [ops], with the arrays read by the [Values]
    calls that come before the first [Next] call blanked out; from the
    first [Next] call on, the results as they are. *)
Fixpoint blank_until_next (ops : list op) (rs : list obs) : list obs :=
  match ops, rs with
  | ONext :: _, _ => rs
  | _ :: ops, r :: rs => mask r :: blank_until_next ops rs
  | _, _ => rs
  end.

(** What each call other than [Next] returns while the array is the one of
    [s]. *)
Definition stale_obs (s : timeValuesSequence) (o : op) : obs :=
  match o with
  | OValues => RValues (view (vals s))
  | OValueType => RType (fieldTypeOf k)
  | _ => RUnit
  end.

(** The two generators driven by hand: for each size in turn, one [Write]
    of each generator on a zero-filled buffer of that size.  The blocks
    written, and the states the generators end in. *)
Fixpoint writes (sizes : list Z) (t : TS) (v : VS) : list block * (TS * VS) :=
  match sizes with
  | [] => ([], (t, v))
  | c :: sizes =>
      let '(t', tout) :=
        TimestampSequence.Write t (replicate (Z.to_nat c) 0) in
      let '(v', vout) :=
        ValuesSequence.Write v (replicate (Z.to_nat c) (zeroOf k)) in
      let '(bs, fin) := writes sizes t' v' in
      ((tout, vout) :: bs, fin)
  end.

End TimeValuesSequence.

Arguments RUnit {k}.
Arguments RBool {k} b.
Arguments RValues {k} b.
Arguments RType {k} t.

(** *** The five instantiations *)

Definition NewTimeFloatValuesSequence {TS VS : Type} :=
  @NewTimeValuesSequence KFloat TS VS.
Definition NewTimeIntegerValuesSequence {TS VS : Type} :=
  @NewTimeValuesSequence KInteger TS VS.
Definition NewTimeUnsignedValuesSequence {TS VS : Type} :=
  @NewTimeValuesSequence KUnsigned TS VS.
Definition NewTimeStringValuesSequence {TS VS : Type} :=
  @NewTimeValuesSequence KString TS VS.
Definition NewTimeBooleanValuesSequence {TS VS : Type} :=
  @NewTimeValuesSequence KBoolean TS VS.

(** *** Two generators to run the model on *)

(** Timestamps counting up from zero; the state is the next timestamp. *)
Definition counter_Write (s : Z) (v : list Z) : Z * list Z :=
  ((s + Z.of_nat (length v))%Z, seqZ s (Z.of_nat (length v))).

#[export] Instance counterTimestamps : TimestampSequence.t Z.
Proof.
  refine {| TimestampSequence.Reset _ := 0%Z;
            TimestampSequence.Write := counter_Write |}.
  intros s v. unfold counter_Write. simpl. rewrite length_seqZ. lia.
Defined.

(** A constant integer value; the state is the value. *)
Definition constant_Write (s : Z) (v : list Z) : Z * list Z :=
  (s, replicate (length v) s).

#[export] Instance constantIntegers : ValuesSequence.t (valueOf KInteger) Z.
Proof.
  refine {| ValuesSequence.Reset s := s;
            ValuesSequence.Write := constant_Write |}.
  intros s v. unfold constant_Write. simpl. apply length_replicate.
Defined.

(** The spec's scenario: 250 points in blocks of at most 100. *)
Definition scenario : timeValuesSequence KInteger :=
  NewTimeIntegerValuesSequence 100 250 0%Z 7%Z.

Definition scenario_run (ops : list op) :
  option (list (obs KInteger) * timeValuesSequence KInteger) :=
  run KInteger 100 ops scenario.

Definition scenario_state (ops : list op) : timeValuesSequence KInteger :=
  match scenario_run ops with Some (_, s) => s | None => scenario end.

Definition scenario_results (ops : list op) : list (obs KInteger) :=
  match scenario_run ops with Some (rs, _) => rs | None => [] end.

Definition scenario_lengths (fuel : nat) : option (list Z) :=
  match drain KInteger 100 fuel scenario with
  | Some (bs, _) => Some (lengths KInteger bs)
  | None => None
  end.

(** A generator whose [Write] reads the cells it is given: it adds one to
    each.  It has no state of its own, so its [Reset] restores its initial
    state. *)
Definition bumping_Write (s : unit) (v : list Z) : unit * list Z :=
  (s, Z.succ <$> v).

#[export] Instance bumpingIntegers
  : ValuesSequence.t (valueOf KInteger) unit.
Proof.
  refine {| ValuesSequence.Reset s := s;
            ValuesSequence.Write := bumping_Write |}.
  intros s v. unfold bumping_Write. simpl. apply length_fmap.
Defined.

(** Two points in one block, from the bumping generator; and the same
    sequence after that block, the false-returning [Next] and a [Reset]. *)
Definition bumping : timeValuesSequence KInteger :=
  NewTimeIntegerValuesSequence 100 2 0%Z tt.

Definition bumping_reset : timeValuesSequence KInteger :=
  match run KInteger 100 [ONext; ONext; OReset] bumping with
  | Some (_, s) => s
  | None => bumping
  end.

End gen.

(** ** Package [tsm1]: the array cursor iterator *)

Module tsm1.

(** The file is generated from one template, instantiated at five value
    types; [kind] is the template parameter. *)
Inductive kind : Set := KFloat | KInteger | KUnsigned | KString | KBoolean.

#[export] Instance kind_eq_dec : EqDecision kind.
Proof. solve_decision. Defined.

(** A pointer to a cursor object is a location of the heap. *)
Abbreviation loc := nat (only parsing).

(** The anonymous struct type of [q.asc] and [q.desc]: one pointer per value
    type, [None] for nil. *)
Record cursors : Set := Cursors {
  Float : option loc;
  Integer : option loc;
  Unsigned : option loc;
  String : option loc;
  Boolean : option loc
}.

(** [c.<T>] and [c.<T> = p]. *)
Definition get (t : kind) (c : cursors) : option loc :=
  match t with
  | KFloat => Float c
  | KInteger => Integer c
  | KUnsigned => Unsigned c
  | KString => String c
  | KBoolean => Boolean c
  end.

Definition set (t : kind) (p : option loc) (c : cursors) : cursors :=
  match t with
  | KFloat => Cursors p (Integer c) (Unsigned c) (String c) (Boolean c)
  | KInteger => Cursors (Float c) p (Unsigned c) (String c) (Boolean c)
  | KUnsigned => Cursors (Float c) (Integer c) p (String c) (Boolean c)
  | KString => Cursors (Float c) (Integer c) (Unsigned c) p (Boolean c)
  | KBoolean => Cursors (Float c) (Integer c) (Unsigned c) (String c) p
  end.

Section ArrayCursorIterator.

(** What the iterator works with and these files do not define: the engine,
    the context, the arguments of a series key, the key itself, a cache
    snapshot, a disk cursor, the query options, errors, and the state of a
    merge cursor object. *)
Context {Engine Context_ Name Tags Field Key CacheValues KeyCursor
         IteratorOptions Err CursorState : Type}.

(** [opt.Ascending], [opt.SeekTime()] and [opt.StopTime()]. *)
Context (Ascending : IteratorOptions → bool).
Context (SeekTime StopTime : IteratorOptions → Z).

(** [q.seriesFieldKeyBytes(name, tags, field)] is a method of the iterator
    that these files call and do not define: it builds the series-field key
    in a buffer that the iterator keeps and returns that buffer.  It is
    taken as the function from the buffer as it is, the name, the tags and
    the field to the buffer as the method leaves it, which is the key. *)
Context (seriesFieldKeyBytes : Key → Name → Tags → Field → Key).

(** [q.e.Cache.Values(key)] and [q.e.KeyCursor(ctx, key, t, ascending)]. *)
Context (Cache_Values : Engine → Key → CacheValues).
Context (Engine_KeyCursor : Engine → Context_ → Key → Z → bool → KeyCursor).

(** The ten constructors [new<T>Array{Ascending,Descending}Cursor()] and the
    ten [reset] methods, by value type and direction ([true] is ascending).
    [reset] changes the cursor object and returns an error or nil. *)
Context (newArrayCursor : kind → bool → CursorState).
Context (reset : kind → bool → CursorState → Z → Z → CacheValues → KeyCursor
                 → CursorState * option Err).

(** The engine, the key buffer of [seriesFieldKeyBytes], and the two
    structs of pooled cursors. *)
Record arrayCursorIterator : Type := ArrayCursorIterator {
  e : Engine;
  key : Key;
  asc : cursors;
  desc : cursors
}.

(** The iterator and the cursor objects its pointers refer to. *)
Record state : Type := State {
  heap : gmap nat CursorState;
  q : arrayCursorIterator
}.

(** [q.asc] or [q.desc]. *)
Definition pool (ascending : bool) (q : arrayCursorIterator) : cursors :=
  if ascending then asc q else desc q.

Definition set_key (k : Key) (q : arrayCursorIterator) : arrayCursorIterator :=
  ArrayCursorIterator (e q) k (asc q) (desc q).

Definition set_asc (c : cursors) (q : arrayCursorIterator)
  : arrayCursorIterator :=
  ArrayCursorIterator (e q) (key q) c (desc q).

Definition set_desc (c : cursors) (q : arrayCursorIterator)
  : arrayCursorIterator :=
  ArrayCursorIterator (e q) (key q) (asc q) c.

(** Allocation of a new object. *)
Definition alloc (c : CursorState) (h : gmap nat CursorState)
  : nat * gmap nat CursorState :=
  let l := fresh (dom h) in (l, <[l := c]> h).

(** [p.reset(seek, stop, cacheValues, keyCursor)] on the object [p] points
    to.  [None]: [p] points to no object, which Go rules out. *)
Definition call_reset (t : kind) (ascending : bool) (p : nat)
    (seek stop : Z) (cacheValues : CacheValues) (keyCursor : KeyCursor)
    (h : gmap nat CursorState)
  : option (option Err * gmap nat CursorState) :=
  c ← h !! p;
  let '(c', err) := reset t ascending c seek stop cacheValues keyCursor in
  Some (err, <[p := c']> h).

(** What a build returns: a cursor (nil or a pointer) and an error (nil or
    an error). *)
Definition result : Type := option nat * option Err.

(** [build<T>ArrayCursor].  [None] stands for a nil dereference or a
    dangling pointer. *)
Definition buildArrayCursor (t : kind) (σ : state)
    (ctx : Context_) (name : Name) (tags : Tags) (field : Field)
    (opt : IteratorOptions)
  : option (result * state) :=
  let key := seriesFieldKeyBytes (key (q σ)) name tags field in
  let q0 := set_key key (q σ) in
  let cacheValues := Cache_Values (e q0) key in
  let keyCursor :=
    Engine_KeyCursor (e q0) ctx key (SeekTime opt) (Ascending opt) in
  if Ascending opt then
    let '(h1, q1) :=
      match get t (asc q0) with
      | None =>
          let '(l, h1) := alloc (newArrayCursor t true) (heap σ) in
          (h1, set_asc (set t (Some l) (asc q0)) q0)
      | Some _ => (heap σ, q0)
      end in
    p ← get t (asc q1);
    '(err, h2) ← call_reset t true p (SeekTime opt) (StopTime opt)
                   cacheValues keyCursor h1;
    match err with
    | Some er => Some ((None, Some er), State h2 q1)
    | None => Some ((get t (asc q1), None), State h2 q1)
    end
  else
    let '(h1, q1) :=
      match get t (desc q0) with
      | None =>
          let '(l, h1) := alloc (newArrayCursor t false) (heap σ) in
          (h1, set_desc (set t (Some l) (desc q0)) q0)
      | Some _ => (heap σ, q0)
      end in
    p ← get t (desc q1);
    '(err, h2) ← call_reset t false p (SeekTime opt) (StopTime opt)
                   cacheValues keyCursor h1;
    match err with
    | Some er => Some ((None, Some er), State h2 q1)
    | None => Some ((get t (desc q1), None), State h2 q1)
    end.

Definition buildFloatArrayCursor := buildArrayCursor KFloat.
Definition buildIntegerArrayCursor := buildArrayCursor KInteger.
Definition buildUnsignedArrayCursor := buildArrayCursor KUnsigned.
Definition buildStringArrayCursor := buildArrayCursor KString.
Definition buildBooleanArrayCursor := buildArrayCursor KBoolean.

(** A build call, and a sequence of them on one iterator. *)
Record call : Type := Call {
  call_kind : kind;
  call_ctx : Context_;
  call_name : Name;
  call_tags : Tags;
  call_field : Field;
  call_opt : IteratorOptions
}.

Definition build (c : call) (σ : state) : option (result * state) :=
  match call_kind c with
  | KFloat => buildFloatArrayCursor
  | KInteger => buildIntegerArrayCursor
  | KUnsigned => buildUnsignedArrayCursor
  | KString => buildStringArrayCursor
  | KBoolean => buildBooleanArrayCursor
  end σ (call_ctx c) (call_name c) (call_tags c) (call_field c) (call_opt c).

Fixpoint builds (cs : list call) (σ : state)
  : option (list result * state) :=
  match cs with
  | [] => Some ([], σ)
  | c :: cs =>
      '(r, σ1) ← build c σ;
      '(rs, σ2) ← builds cs σ1;
      Some (r :: rs, σ2)
  end.

(** *** Specification vocabulary *)

(** Every pointer in the pool points to an object. *)
Definition wf (σ : state) : Prop :=
  ∀ t d l, get t (pool d (q σ)) = Some l → is_Some (heap σ !! l).

(** [q.asc.<T> = p] or [q.desc.<T> = p]. *)
Definition set_slot (t : kind) (ascending : bool) (p : option nat)
    (q : arrayCursorIterator) : arrayCursorIterator :=
  if ascending then set_asc (set t p (asc q)) q
  else set_desc (set t p (desc q)) q.

(** The arguments a build passes to [reset]. *)
Definition reset_of (t : kind) (σ : state) (c : call) (obj : CursorState)
  : CursorState * option Err :=
  let k := seriesFieldKeyBytes (key (q σ)) (call_name c) (call_tags c)
             (call_field c) in
  let opt := call_opt c in
  reset t (Ascending opt) obj (SeekTime opt) (StopTime opt)
    (Cache_Values (e (q σ)) k)
    (Engine_KeyCursor (e (q σ)) (call_ctx c) k (SeekTime opt) (Ascending opt)).

(** What a build returns when the cursor is [l] and [reset] returned [r]. *)
Definition result_of (l : nat) (r : option Err) : result :=
  match r with
  | Some er => (None, Some er)
  | None => (Some l, None)
  end.

(** The five value types, and the pointers held by the ten slots. *)
Definition kinds : list kind :=
  [KFloat; KInteger; KUnsigned; KString; KBoolean].

Definition pointers (q : arrayCursorIterator) : list nat :=
  omap (λ t, get t (asc q)) kinds ++ omap (λ t, get t (desc q)) kinds.

(** No two slots hold the same pointer. *)
Definition no_alias (σ : state) : Prop :=
  ∀ t d t' d' l,
    get t (pool d (q σ)) = Some l → get t' (pool d' (q σ)) = Some l →
    t = t' ∧ d = d'.

(** Every cursor object is the one of some slot. *)
Definition owned (σ : state) : Prop :=
  ∀ l, is_Some (heap σ !! l) → ∃ t d, get t (pool d (q σ)) = Some l.

(** A result is a cursor or an error, and not both. *)
Definition cursor_xor_error (r : result) : Prop :=
  match r with
  | (Some _, None) | (None, Some _) => True
  | _ => False
  end.

End ArrayCursorIterator.

Arguments set_slot : simpl never.

(** *** An engine to run the model on *)

(** Query options are a direction and two time bounds; a key is the name
    followed by the field, built in the buffer from its start, whatever the
    buffer held; a disk cursor is a flag, readable or not, and the
    store cannot be read before time zero; a cursor object counts the calls
    of [reset] it has seen, and [reset] fails with error 5 on an unreadable
    disk cursor. *)
Definition ex_Ascending (o : bool * Z * Z) : bool := o.1.1.
Definition ex_SeekTime (o : bool * Z * Z) : Z := o.1.2.
Definition ex_StopTime (o : bool * Z * Z) : Z := o.2.

Definition ex_seriesFieldKeyBytes (buf : list nat) (name : nat) (tags : unit)
    (field : nat) : list nat :=
  [name; field].

Definition ex_Cache_Values (e : unit) (k : list nat) : unit := tt.

Definition ex_KeyCursor (e : unit) (ctx : unit) (k : list nat) (t : Z)
    (ascending : bool) : bool :=
  (0 <=? t)%Z.

Definition ex_newArrayCursor (t : kind) (ascending : bool) : nat := 0.

Definition ex_reset (t : kind) (ascending : bool) (c : nat) (seek stop : Z)
    (cacheValues : unit) (keyCursor : bool) : nat * option nat :=
  (S c, if keyCursor then None else Some 5).

Definition ex_build :=
  build ex_Ascending ex_SeekTime ex_StopTime ex_seriesFieldKeyBytes
    ex_Cache_Values ex_KeyCursor ex_newArrayCursor ex_reset.

Definition ex_builds :=
  builds ex_Ascending ex_SeekTime ex_StopTime ex_seriesFieldKeyBytes
    ex_Cache_Values ex_KeyCursor ex_newArrayCursor ex_reset.

(** An iterator that has built nothing yet. *)
Definition ex_new_iterator : state (Engine := unit) (Key := list nat) (CursorState := nat) :=
  State ∅ (ArrayCursorIterator tt []
             (Cursors None None None None None)
             (Cursors None None None None None)).

(** A float scan from time 10, and one from before time zero. *)
Definition ex_good : call := Call KFloat tt 1 tt 2 (true, 10%Z, 20%Z).
Definition ex_bad : call := Call KFloat tt 1 tt 2 (true, (-1)%Z, 20%Z).

(** The iterator after the failed build [ex_bad]. *)
Definition ex_after_bad : state (Engine := unit) (Key := list nat) (CursorState := nat) :=
  State {[ 0 := 1 ]}
        (ArrayCursorIterator tt [1; 2]
           (Cursors (Some 0) None None None None)
           (Cursors None None None None None)).

End tsm1.

(** * Theorems *)

(** ** Time values sequences *)

Module gen_proofs.
Import gen.

Section TimeValuesSequence.
Open Scope Z_scope.

Context (k : kind) {TS VS : Type}.
Context {TSeq : TimestampSequence.t TS} {VSeq : ValuesSequence.t (valueOf k) VS}.
Context (DefaultMaxPointsPerBlock : Z).

Local Abbreviation typedArray := (gen.typedArray k).
Local Abbreviation Timestamps := (gen.Timestamps k).
Local Abbreviation Values_ := (gen.Values_ k).
Local Abbreviation timeValuesSequence :=
  (gen.timeValuesSequence k (TS := TS) (VS := VS)).
Local Abbreviation vals := (gen.vals k).
Local Abbreviation ts := (gen.ts k).
Local Abbreviation vs := (gen.vs k).
Local Abbreviation count := (gen.count k).
Local Abbreviation n := (gen.n k).
Local Abbreviation NewTimeValuesSequence :=
  (gen.NewTimeValuesSequence k DefaultMaxPointsPerBlock).
Local Abbreviation Reset := (gen.Reset k).
Local Abbreviation Next := (gen.Next k DefaultMaxPointsPerBlock).
Local Abbreviation Values := (gen.Values k).
Local Abbreviation block := (gen.block k).
Local Abbreviation view := (gen.view k).
Local Abbreviation block_len := (gen.block_len k).
Local Abbreviation obs := (gen.obs k).
Local Abbreviation step := (gen.step k DefaultMaxPointsPerBlock).
Local Abbreviation run := (gen.run k DefaultMaxPointsPerBlock).
Local Abbreviation drain := (gen.drain k DefaultMaxPointsPerBlock).
Local Abbreviation wf := (gen.wf k DefaultMaxPointsPerBlock).
Local Abbreviation never_true := (gen.never_true k).
Local Abbreviation reachable := (gen.reachable k DefaultMaxPointsPerBlock).
Local Abbreviation exhausted_obs := (gen.exhausted_obs k).
Local Abbreviation overwrites :=
  (gen.overwrites k (TSeq := TSeq) (VSeq := VSeq)).
Local Abbreviation sim := (gen.sim k DefaultMaxPointsPerBlock).
Local Abbreviation mask := (gen.mask k).
Local Abbreviation blank_until_next := (gen.blank_until_next k).
Local Abbreviation stale_obs := (gen.stale_obs k).
Local Abbreviation writes := (gen.writes k).

(** *** Re-slicing within the capacity *)

Lemma slice_to_Some {A} (s : slice A) (c : Z) :
  0 ≤ c ≤ cap s →
  ∃ s', slice_to s c = Some s' ∧ len s' = c ∧ cap s' = cap s
        ∧ elems s' = take (Z.to_nat c) (elems s ++ spare s).
Proof.
  intros Hc. unfold slice_to.
  assert (Hb : (0 <=? c) && (c <=? cap s) = true) by
    (apply andb_true_intro; split; apply Z.leb_le; lia).
  rewrite Hb. eexists; split; [reflexivity|].
  unfold len, cap in *; cbn.
  rewrite length_take, length_drop, length_app in *. repeat split; lia.
Qed.

Lemma cap_store {A} (s : slice A) (out : list A) :
  length out = length (elems s) → cap (store s out) = cap s.
Proof. unfold cap, store; cbn. intros ->. reflexivity. Qed.

Lemma len_store {A} (s : slice A) (out : list A) :
  length out = length (elems s) → len (store s out) = len s.
Proof. unfold len, store; cbn. intros ->. reflexivity. Qed.

Lemma cap_make {A} (z : A) (sz : Z) : 0 ≤ sz → cap (make z sz) = sz.
Proof.
  intros. unfold cap, make; cbn. rewrite length_replicate. lia.
Qed.

Lemma len_make {A} (z : A) (sz : Z) : 0 ≤ sz → len (make z sz) = sz.
Proof.
  intros. unfold len, make; cbn. rewrite length_replicate. lia.
Qed.

(** *** One call of [Next] *)

Lemma Next_exhausted (s : timeValuesSequence) :
  n s ≤ 0 → Next s = Some (false, s).
Proof.
  intros Hn. unfold gen.Next.
  destruct (Z.ltb_spec 0 (n s)); [lia | reflexivity].
Qed.

Lemma Next_active (s : timeValuesSequence) :
  0 < DefaultMaxPointsPerBlock → wf s → 0 < n s →
  let c := Z.min (n s) DefaultMaxPointsPerBlock in
  ∃ tsl vsl s',
    Next s = Some (true, s')
    ∧ slice_to (Timestamps (vals s)) c = Some tsl
    ∧ slice_to (Values_ (vals s)) c = Some vsl
    ∧ len tsl = c ∧ len vsl = c
    ∧ TimestampSequence.Write (ts s) (elems tsl)
      = (ts s', elems (Timestamps (vals s')))
    ∧ ValuesSequence.Write (vs s) (elems vsl)
      = (vs s', elems (Values_ (vals s')))
    ∧ len (Timestamps (vals s')) = c
    ∧ len (Values_ (vals s')) = c
    ∧ n s' = n s - c
    ∧ count s' = count s
    ∧ wf s'.
Proof.
  intros HB [Hct Hcv] Hn c.
  assert (Hc : 0 ≤ c ≤ DefaultMaxPointsPerBlock) by (unfold c; lia).
  destruct (slice_to_Some (Timestamps (vals s)) c) as (tsl & Et & Lt & Ct & _);
    [lia|].
  destruct (slice_to_Some (Values_ (vals s)) c) as (vsl & Ev & Lv & Cv & _);
    [lia|].
  unfold gen.Next. destruct (Z.ltb_spec 0 (n s)); [|lia].
  fold c. rewrite Et, Ev. cbn.
  pose proof (TimestampSequence.Write_length (ts s) (elems tsl)) as Wt.
  pose proof (ValuesSequence.Write_length (vs s) (elems vsl)) as Wv.
  destruct (TimestampSequence.Write (ts s) (elems tsl)) as [ts' tout] eqn:EWt.
  destruct (ValuesSequence.Write (vs s) (elems vsl)) as [vs' vout] eqn:EWv.
  cbn in Wt, Wv.
  exists tsl, vsl. eexists. split; [reflexivity|]. cbn.
  rewrite !len_store by assumption.
  unfold gen.wf; cbn. rewrite !cap_store by assumption.
  repeat split; congruence.
Qed.

(** The capacities never change. *)
Lemma Next_wf (s s' : timeValuesSequence) (b : bool) :
  0 < DefaultMaxPointsPerBlock → wf s → Next s = Some (b, s') → wf s'.
Proof.
  intros HB Hwf E. destruct (Z.lt_ge_cases 0 (n s)) as [Hn|Hn].
  - destruct (Next_active s HB Hwf Hn)
      as (? & ? & s1 & E1 & _ & _ & _ & _ & _ & _ & _ & _ & _ & _ & W).
    congruence.
  - rewrite Next_exhausted in E by assumption. congruence.
Qed.

Lemma Next_total (s : timeValuesSequence) :
  0 < DefaultMaxPointsPerBlock → wf s → is_Some (Next s).
Proof.
  intros HB Hwf. destruct (Z.lt_ge_cases 0 (n s)) as [Hn|Hn].
  - destruct (Next_active s HB Hwf Hn) as (? & ? & s1 & E1 & _). eauto.
  - rewrite Next_exhausted by assumption. eauto.
Qed.

Lemma New_wf (c : Z) (t0 : TS) (v0 : VS) :
  0 < DefaultMaxPointsPerBlock → wf (NewTimeValuesSequence c t0 v0).
Proof.
  intros HB. unfold gen.wf; cbn. rewrite !cap_make by lia. done.
Qed.

Lemma Reset_wf (s : timeValuesSequence) : wf s → wf (Reset s).
Proof. intros H. exact H. Qed.

(** *** Sequences of calls *)

Lemma step_wf (o : op) (s s' : timeValuesSequence) (r : obs) :
  0 < DefaultMaxPointsPerBlock → wf s → step o s = Some (r, s') → wf s'.
Proof.
  intros HB Hwf E. destruct o; cbn in E.
  - injection E as _ <-. exact Hwf.
  - destruct (Next s) as [[b s1]|] eqn:EN; cbn in E; [|discriminate].
    injection E as _ <-. eapply Next_wf; eassumption.
  - injection E as _ <-. exact Hwf.
  - injection E as _ <-. exact Hwf.
Qed.

Lemma step_total (o : op) (s : timeValuesSequence) :
  0 < DefaultMaxPointsPerBlock → wf s → is_Some (step o s).
Proof.
  intros HB Hwf. destruct o; cbn; eauto.
  destruct (Next_total s HB Hwf) as [[b s1] ->]. cbn. eauto.
Qed.

Lemma run_wf (ops : list op) :
  0 < DefaultMaxPointsPerBlock →
  ∀ s, wf s → ∃ rs s', run ops s = Some (rs, s') ∧ wf s'.
Proof.
  intros HB. induction ops as [|o ops IH]; intros s Hwf; cbn.
  - eauto.
  - destruct (step_total o s HB Hwf) as [[r s1] E1]. rewrite E1. cbn.
    destruct (IH s1 (step_wf _ _ _ _ HB Hwf E1)) as (rs & s2 & -> & W2).
    cbn. eauto.
Qed.

Lemma reachable_wf (s : timeValuesSequence) :
  0 < DefaultMaxPointsPerBlock → reachable s → wf s.
Proof.
  intros HB (c & t0 & v0 & ops & rs & E).
  destruct (run_wf ops HB _ (New_wf c t0 v0 HB)) as (rs' & s' & E' & W).
  congruence.
Qed.

(** Outside [Reset], an exhausted state does not move. *)
Lemma run_exhausted (ops : list op) (s : timeValuesSequence) :
  n s ≤ 0 → OReset ∉ ops →
  run ops s = Some (exhausted_obs s <$> ops, s).
Proof.
  intros Hn. induction ops as [|o ops IH]; intros Hno; [reflexivity|].
  apply not_elem_of_cons in Hno as [Ho Hops]. cbn.
  assert (E : step o s = Some (exhausted_obs s o, s)).
  { destruct o; cbn; try reflexivity; [congruence|].
    rewrite Next_exhausted by assumption. reflexivity. }
  rewrite E. cbn. rewrite IH by assumption. reflexivity.
Qed.

(** Only a [Next] that returns true writes to the array. *)
Lemma step_vals (o : op) (s s' : timeValuesSequence) (r : obs) :
  step o s = Some (r, s') → r ≠ RBool true → vals s' = vals s.
Proof.
  intros E Hr. destruct o; cbn in E.
  - injection E as _ <-. reflexivity.
  - destruct (Next s) as [[b s1]|] eqn:EN; simpl in E; [|discriminate].
    injection E as <- <-. unfold gen.Next in EN. destruct (0 <? n s).
    + destruct (slice_to (Timestamps _) _); simpl in EN; [|discriminate].
      destruct (slice_to (Values_ _) _); simpl in EN; [|discriminate].
      destruct (TimestampSequence.Write _ _), (ValuesSequence.Write _ _).
      injection EN as <- _. congruence.
    + injection EN as _ <-. reflexivity.
  - injection E as _ <-. reflexivity.
  - injection E as _ <-. reflexivity.
Qed.

Lemma run_vals (ops : list op) :
  ∀ s rs s', run ops s = Some (rs, s') → never_true rs → vals s' = vals s.
Proof.
  induction ops as [|o ops IH]; intros s rs s' E Hrs; cbn in E.
  - injection E as _ <-. reflexivity.
  - destruct (step o s) as [[r s1]|] eqn:E1; cbn in E; [|discriminate].
    destruct (run ops s1) as [[rs1 s2]|] eqn:E2; cbn in E; [|discriminate].
    injection E as <- <-. apply not_elem_of_cons in Hrs as [Hr Hrs].
    rewrite (IH _ _ _ E2 Hrs). eapply step_vals; [eassumption|congruence].
Qed.

Lemma run_app (ops1 ops2 : list op) :
  ∀ s rs s', run (ops1 ++ ops2) s = Some (rs, s') →
  ∃ rs1 rs2 s1, run ops1 s = Some (rs1, s1) ∧ run ops2 s1 = Some (rs2, s')
                ∧ rs = rs1 ++ rs2 ∧ length rs1 = length ops1.
Proof.
  induction ops1 as [|o ops1 IH]; intros s rs s' E; cbn in E.
  - exists [], rs, s. cbn. auto.
  - destruct (step o s) as [[r s1]|] eqn:E1; cbn in E; [|discriminate].
    destruct (run (ops1 ++ ops2) s1) as [[rs1 s2]|] eqn:E2; cbn in E;
      [|discriminate].
    injection E as <- <-.
    destruct (IH _ _ _ E2) as (ra & rb & sa & Ea & Eb & -> & L).
    exists (r :: ra), rb, sa. cbn. rewrite E1. cbn. rewrite Ea. cbn.
    auto with lia.
Qed.

Lemma len_le_cap {A} (s : slice A) : 0 ≤ len s ≤ cap s.
Proof. unfold len, cap. lia. Qed.

Lemma step_lens (o : op) (s s' : timeValuesSequence) (r : obs) :
  0 < DefaultMaxPointsPerBlock → wf s →
  len (Timestamps (vals s)) = len (Values_ (vals s)) →
  step o s = Some (r, s') →
  len (Timestamps (vals s')) = len (Values_ (vals s')).
Proof.
  intros HB Hwf Hl E.
  assert (Hd : r = RBool true ∨ r ≠ RBool true)
    by (destruct r as [|[|]| |]; (by left) || (by right)).
  destruct Hd as [->|Hr].
  - destruct o; simpl in E; try discriminate.
    destruct (Z.lt_ge_cases 0 (n s)) as [Hn|Hn].
    + destruct (Next_active s HB Hwf Hn)
        as (? & ? & s1 & E1 & _ & _ & _ & _ & _ & _ & Lt & Lv & _).
      rewrite E1 in E. simpl in E. injection E as <-. congruence.
    + rewrite Next_exhausted in E by assumption. discriminate.
  - rewrite (step_vals _ _ _ _ E Hr). exact Hl.
Qed.

(** C2.  In a state with remaining count [n > 0], one call of [Next]
    takes [c = min(n, DefaultMaxPointsPerBlock)], re-slices both halves of
    the array to length [c] without panicking, hands the re-sliced halves to
    the two [Write] methods (whose results are the new contents of the array
    and the new generator states), subtracts [c] from the remaining count
    and returns true. *)
Theorem Next_emits_block (s : timeValuesSequence) :
  0 < DefaultMaxPointsPerBlock → reachable s → 0 < n s →
  let c := Z.min (n s) DefaultMaxPointsPerBlock in
  ∃ tsl vsl s',
    Next s = Some (true, s')
    ∧ n s' = n s - c
    ∧ count s' = count s
    ∧ slice_to (Timestamps (vals s)) c = Some tsl
    ∧ slice_to (Values_ (vals s)) c = Some vsl
    ∧ len (Timestamps (vals s')) = c
    ∧ len (Values_ (vals s')) = c
    ∧ (ts s', elems (Timestamps (vals s')))
      = TimestampSequence.Write (ts s) (elems tsl)
    ∧ (vs s', elems (Values_ (vals s')))
      = ValuesSequence.Write (vs s) (elems vsl).
Proof.
  intros HB Hr Hn c.
  destruct (Next_active s HB (reachable_wf s HB Hr) Hn)
    as (tsl & vsl & s' & E & Et & Ev & _ & _ & Wt & Wv & Lt & Lv & En & Ec & _).
  exists tsl, vsl, s'. repeat split; auto.
Qed.

(** C3.  Once the remaining count is zero, [Next] returns false and leaves
    the sequence as it is; so does any further sequence of [Next], [Values]
    and [ValueType] calls: every [Next] in it returns false and the state at
    its end is the state at its start.  [Reset] is the way out: when the
    configured count is positive, the [Next] after a [Reset] returns
    true. *)
Theorem exhausted_is_terminal (s : timeValuesSequence) :
  n s = 0 →
  Next s = Some (false, s)
  ∧ (∀ ops, OReset ∉ ops → run ops s = Some (exhausted_obs s <$> ops, s))
  ∧ (0 < DefaultMaxPointsPerBlock → reachable s → 0 < count s →
     ∃ s', Next (Reset s) = Some (true, s')).
Proof.
  intros Hn. split; [apply Next_exhausted; lia|]. split.
  - intros ops Hops. apply run_exhausted; [lia|assumption].
  - intros HB Hr Hc.
    destruct (Next_active (Reset s) HB (reachable_wf s HB Hr) Hc)
      as (_ & _ & s' & E & _).
    eauto.
Qed.

(** C7.  After construction and after any sequence of calls — none of
    which panics — the two halves of the internal array have the same
    logical length, and that length is at most
    [DefaultMaxPointsPerBlock]. *)
Theorem array_lengths_invariant (c : Z) (t0 : TS) (v0 : VS) (ops : list op) :
  0 < DefaultMaxPointsPerBlock →
  ∃ rs s,
    run ops (NewTimeValuesSequence c t0 v0) = Some (rs, s)
    ∧ len (Timestamps (vals s)) = len (Values_ (vals s))
    ∧ len (Timestamps (vals s)) ≤ DefaultMaxPointsPerBlock.
Proof.
  intros HB.
  assert (G : ∀ ops s, wf s →
            len (Timestamps (vals s)) = len (Values_ (vals s)) →
            ∃ rs s', run ops s = Some (rs, s') ∧ wf s'
              ∧ len (Timestamps (vals s')) = len (Values_ (vals s'))).
  { clear ops. induction ops as [|o ops IH]; intros s Hwf Hl; simpl.
    - eauto.
    - destruct (step_total o s HB Hwf) as [[r s1] E1]. rewrite E1. simpl.
      destruct (IH s1) as (rs & s2 & -> & W2 & L2).
      + eapply step_wf; eassumption.
      + eapply step_lens; eassumption.
      + simpl. eauto. }
  destruct (G ops (NewTimeValuesSequence c t0 v0)) as (rs & s & E & W & L).
  - apply New_wf, HB.
  - simpl. rewrite !len_make by lia. reflexivity.
  - exists rs, s. repeat split; [assumption..|].
    destruct W as [<- _]. apply len_le_cap.
Qed.

(** What a [Next] that returned true has done. *)
Lemma Next_true_inv (s s1 : timeValuesSequence) :
  Next s = Some (true, s1) →
  0 < n s
  ∧ ∃ tsl vsl,
      slice_to (Timestamps (vals s)) (Z.min (n s) DefaultMaxPointsPerBlock)
      = Some tsl
      ∧ slice_to (Values_ (vals s)) (Z.min (n s) DefaultMaxPointsPerBlock)
        = Some vsl
      ∧ vals s1
        = gen.TypedArray k
            (store tsl (TimestampSequence.Write (ts s) (elems tsl)).2)
            (store vsl (ValuesSequence.Write (vs s) (elems vsl)).2).
Proof.
  intros EN. unfold gen.Next in EN.
  destruct (Z.ltb_spec 0 (n s)) as [Hn|Hn]; [|discriminate].
  split; [exact Hn|].
  destruct (slice_to (Timestamps (vals s)) _) as [tsl|]; simpl in EN;
    [|discriminate].
  destruct (slice_to (Values_ (vals s)) _) as [vsl|]; simpl in EN;
    [|discriminate].
  exists tsl, vsl. split; [reflexivity|]. split; [reflexivity|].
  destruct (TimestampSequence.Write (ts s) (elems tsl)) as [ts' tout].
  destruct (ValuesSequence.Write (vs s) (elems vsl)) as [vs' vout].
  injection EN as <-. reflexivity.
Qed.

(** C8.  Let [Next] return true and leave the state [s1].  After any
    further calls in which no [Next] returns true and of which the last is a
    [Next] returning false — the sequence is exhausted — [Values] does not
    fail and returns the internal array exactly as that [Next] left it: the
    two halves re-sliced to the block length and holding what the two
    [Write] calls of that [Next] put there, a block that is not empty. *)
Theorem Values_after_exhaustion
    (s s1 s2 : timeValuesSequence) (ops : list op) (rs : list obs) :
  Next s = Some (true, s1) →
  run (ops ++ [ONext]) s1 = Some (rs ++ [RBool false], s2) →
  never_true rs →
  Values s2 = Values s1
  ∧ step OValues s2 = Some (RValues (view (Values s1)), s2)
  ∧ (0 < DefaultMaxPointsPerBlock → reachable s →
     0 < block_len (view (Values s2)))
  ∧ Values s2 = vals s1
  ∧ ∃ tsl vsl,
      slice_to (Timestamps (vals s)) (Z.min (n s) DefaultMaxPointsPerBlock)
      = Some tsl
      ∧ slice_to (Values_ (vals s)) (Z.min (n s) DefaultMaxPointsPerBlock)
        = Some vsl
      ∧ Values s2
        = gen.TypedArray k
            (store tsl (TimestampSequence.Write (ts s) (elems tsl)).2)
            (store vsl (ValuesSequence.Write (vs s) (elems vsl)).2)
      ∧ view (Values s2)
        = ((TimestampSequence.Write (ts s) (elems tsl)).2,
           (ValuesSequence.Write (vs s) (elems vsl)).2).
Proof.
  intros EN E Hrs.
  assert (V : vals s2 = vals s1).
  { eapply run_vals; [exact E|]. unfold gen.never_true in *.
    rewrite elem_of_app, list_elem_of_singleton. intros [?|?]; [tauto|].
    discriminate. }
  destruct (Next_true_inv s s1 EN) as (Hn & tsl & vsl & Et & Ev & Hv).
  unfold gen.Values. simpl. unfold gen.Values. rewrite V.
  split; [reflexivity|]. split; [reflexivity|]. split.
  - intros HB Hr.
    destruct (Next_active s HB (reachable_wf s HB Hr) Hn)
      as (? & ? & s1' & E1 & _ & _ & _ & _ & _ & _ & Lt & _).
    rewrite EN in E1. injection E1 as <-.
    unfold gen.block_len, gen.view. simpl. unfold len in Lt. lia.
  - split; [reflexivity|]. exists tsl, vsl.
    split; [exact Et|]. split; [exact Ev|]. split; [exact Hv|].
    rewrite Hv. reflexivity.
Qed.

(** C9.  A sequence constructed with a count that is zero or negative is
    born exhausted: its first [Next] returns false and changes nothing, the
    caller's loop reads no block, and in any sequence of calls, [Reset]
    included, no [Next] ever returns true. *)
Theorem nonpositive_count_never_emits (c : Z) (t0 : TS) (v0 : VS) :
  c ≤ 0 →
  let s0 := NewTimeValuesSequence c t0 v0 in
  Next s0 = Some (false, s0)
  ∧ drain 1 s0 = Some ([], s0)
  ∧ Next (Reset s0) = Some (false, Reset s0)
  ∧ ∀ ops, ∃ rs s, run ops s0 = Some (rs, s) ∧ never_true rs ∧ n s = c.
Proof.
  intros Hc s0.
  assert (E0 : Next s0 = Some (false, s0)) by (apply Next_exhausted; exact Hc).
  split; [exact E0|]. split; [simpl; fold s0; rewrite E0; reflexivity|].
  split; [apply Next_exhausted; exact Hc|].
  assert (G : ∀ ops s, n s = c → count s = c →
            ∃ rs s', run ops s = Some (rs, s') ∧ never_true rs ∧ n s' = c).
  { induction ops as [|o ops IH]; intros s Hn Hcnt; simpl.
    - exists [], s. split; [reflexivity|]. split; [apply not_elem_of_nil|assumption].
    - assert (S1 : ∃ r s1, step o s = Some (r, s1) ∧ r ≠ RBool true
                          ∧ n s1 = c ∧ count s1 = c).
      { destruct o; simpl; try (eexists _, _; repeat split; eauto; fail).
        rewrite Next_exhausted by lia. simpl.
        eexists _, _; repeat split; eauto. }
      destruct S1 as (r & s1 & -> & Hr & Hn1 & Hc1). simpl.
      destruct (IH s1 Hn1 Hc1) as (rs & s2 & -> & Hrs & Hn2). simpl.
      exists (r :: rs), s2. split; [reflexivity|]. split; [|assumption].
      apply not_elem_of_cons. split; [congruence|assumption]. }
  intros ops. apply G; reflexivity.
Qed.

(** *** Block arithmetic *)

Lemma ceil_div_spec (a b : Z) :
  0 < b → b * (ceil_div a b - 1) < a ≤ b * ceil_div a b.
Proof.
  intros Hb. unfold ceil_div.
  pose proof (Z.div_mod (a + b - 1) b ltac:(lia)) as Hd.
  pose proof (Z.mod_pos_bound (a + b - 1) b Hb) as Hm.
  set (q := (a + b - 1) / b) in *. set (r := (a + b - 1) mod b) in *.
  replace (b * (q - 1)) with (b * q - b) by ring. lia.
Qed.

Lemma ceil_div_step (m b : Z) :
  0 < b → 0 < m → ceil_div m b = 1 + ceil_div (m - Z.min m b) b.
Proof.
  intros Hb Hm. unfold ceil_div.
  destruct (Z.lt_ge_cases m b) as [Hlt|Hge].
  - rewrite Z.min_l, Z.sub_diag by lia.
    rewrite (Z.div_small (0 + b - 1)) by lia.
    replace (m + b - 1) with ((m - 1) + 1 * b) by lia.
    rewrite Z.div_add, Z.div_small by lia. reflexivity.
  - rewrite Z.min_r by lia.
    replace (m + b - 1) with ((m - b + b - 1) + 1 * b) by lia.
    rewrite Z.div_add by lia. lia.
Qed.

Lemma ceil_div_0 (b : Z) : 0 < b → ceil_div 0 b = 0.
Proof. intros Hb. pose proof (ceil_div_spec 0 b Hb). nia. Qed.

Lemma block_sizes_0 (b : Z) : 0 < b → block_sizes 0 b = [].
Proof.
  intros Hb. unfold block_sizes.
  rewrite Z.div_0_l, Z.mod_0_l by lia. reflexivity.
Qed.

Lemma block_sizes_step (m b : Z) :
  0 < b → 0 < m →
  block_sizes m b = Z.min m b :: block_sizes (m - Z.min m b) b.
Proof.
  intros Hb Hm. destruct (Z.lt_ge_cases m b) as [Hlt|Hge].
  - rewrite Z.min_l, Z.sub_diag, block_sizes_0 by lia.
    unfold block_sizes. rewrite Z.div_small, Z.mod_small by lia.
    destruct (Z.eqb_spec m 0); [lia|reflexivity].
  - rewrite Z.min_r by lia. unfold block_sizes.
    assert (Ed : m / b = (m - b) / b + 1)
      by (rewrite <- Z.div_add by lia; f_equal; lia).
    assert (Em : m mod b = (m - b) mod b)
      by (rewrite <- (Z.mod_add (m - b) 1 b) by lia; f_equal; lia).
    pose proof (Z.div_pos (m - b) b ltac:(lia) Hb).
    rewrite Ed, Em, Z2Nat.inj_add, Nat.add_comm by lia. reflexivity.
Qed.

Lemma block_sizes_length (c b : Z) :
  0 < b → 0 ≤ c → Z.of_nat (length (block_sizes c b)) = ceil_div c b.
Proof.
  intros Hb Hc. unfold block_sizes.
  rewrite length_app, length_replicate.
  pose proof (Z.div_mod c b ltac:(lia)).
  pose proof (Z.mod_pos_bound c b Hb).
  pose proof (Z.div_pos c b Hc Hb).
  pose proof (ceil_div_spec c b Hb).
  destruct (Z.eqb_spec (c mod b) 0); simpl; nia.
Qed.

Lemma sumZ_app (l1 l2 : list Z) : sumZ (l1 ++ l2) = sumZ l1 + sumZ l2.
Proof. induction l1 as [|x l1 IH]; simpl; [reflexivity|]. rewrite IH. lia. Qed.

Lemma sumZ_replicate (q : nat) (b : Z) :
  sumZ (replicate q b) = Z.of_nat q * b.
Proof. induction q as [|q IH]; simpl; [reflexivity|]. rewrite IH. lia. Qed.

Lemma block_sizes_sum (c b : Z) :
  0 < b → 0 ≤ c → sumZ (block_sizes c b) = c.
Proof.
  intros Hb Hc. unfold block_sizes. rewrite sumZ_app, sumZ_replicate.
  pose proof (Z.div_mod c b ltac:(lia)).
  pose proof (Z.div_pos c b Hc Hb).
  destruct (Z.eqb_spec (c mod b) 0); simpl; nia.
Qed.

Lemma block_sizes_lookup (c b : Z) (i : nat) (l : Z) :
  block_sizes c b !! i = Some l →
  l = if decide (S i = length (block_sizes c b))
      then (if c mod b =? 0 then b else c mod b)
      else b.
Proof.
  unfold block_sizes. set (q := Z.to_nat (c / b)).
  rewrite length_app, length_replicate. intros Hl.
  destruct (Z.eqb_spec (c mod b) 0) as [Hr|Hr]; simpl in *.
  - rewrite app_nil_r in Hl. apply lookup_replicate in Hl as [-> _].
    destruct (decide _); reflexivity.
  - apply lookup_app_Some in Hl as [Hl|[Hge Hl]].
    + apply lookup_replicate in Hl as [-> Hi].
      destruct (decide _); [lia|reflexivity].
    + rewrite length_replicate in Hge, Hl.
      apply list_lookup_singleton_Some in Hl as [Hi ->].
      destruct (decide _); [reflexivity|lia].
Qed.

(** The caller's loop terminates and reads blocks of the announced
    lengths. *)
Lemma drain_spec (fuel : nat) :
  0 < DefaultMaxPointsPerBlock →
  ∀ s, wf s → 0 ≤ n s →
  (Z.to_nat (ceil_div (n s) DefaultMaxPointsPerBlock) < fuel)%nat →
  ∃ bs s',
    drain fuel s = Some (bs, s')
    ∧ block_len <$> bs = block_sizes (n s) DefaultMaxPointsPerBlock
    ∧ Forall (λ b, length b.1 = length b.2) bs
    ∧ n s' = 0.
Proof.
  intros HB. induction fuel as [|fuel IH]; intros s Hwf Hn Hf; [lia|].
  simpl. destruct (Z.eq_dec (n s) 0) as [H0|H0].
  - rewrite Next_exhausted by lia. exists [], s.
    rewrite H0, block_sizes_0 by lia. auto.
  - destruct (Next_active s HB Hwf ltac:(lia))
      as (? & ? & s1 & E1 & _ & _ & _ & _ & _ & _ & Lt & Lv & En & _ & W1).
    rewrite E1.
    pose proof (ceil_div_step (n s) _ HB ltac:(lia)) as Hcd.
    pose proof (ceil_div_spec (n s - Z.min (n s) DefaultMaxPointsPerBlock)
                  _ HB).
    destruct (IH s1 W1) as (bs & s2 & -> & Hbs & Hlen & Hn2);
      [lia | rewrite En; nia |].
    simpl. eexists _, s2. split; [reflexivity|].
    rewrite block_sizes_step, fmap_cons, Hbs, En by lia.
    split; [f_equal; exact Lt|]. split; [|assumption].
    constructor; [|assumption]. unfold len in Lt, Lv. unfold gen.view, gen.Values. simpl. lia.
Qed.

(** *** Two sequences side by side *)

Lemma Next_sim (s1 s2 : timeValuesSequence) :
  0 < DefaultMaxPointsPerBlock → overwrites → sim s1 s2 →
  ∃ b s1' s2',
    Next s1 = Some (b, s1') ∧ Next s2 = Some (b, s2') ∧ sim s1' s2'
    ∧ (b = true → 0 < n s1 ∧ view (vals s1') = view (vals s2'))
    ∧ (b = false → n s1 ≤ 0 ∧ s1' = s1 ∧ s2' = s2).
Proof.
  intros HB [Ot Ov] (Et & Ev & Ec & En & W1 & W2).
  destruct (Z.lt_ge_cases 0 (n s1)) as [Hn|Hn].
  - destruct (Next_active s1 HB W1 Hn)
      as (t1 & v1 & s1' & E1 & _ & _ & Lt1 & Lv1 & Wt1 & Wv1 & _ & _ & N1 & C1 & W1').
    destruct (Next_active s2 HB W2 ltac:(lia))
      as (t2 & v2 & s2' & E2 & _ & _ & Lt2 & Lv2 & Wt2 & Wv2 & _ & _ & N2 & C2 & W2').
    exists true, s1', s2'. split; [assumption|]. split; [assumption|].
    rewrite <- En in Lt2, Lv2. unfold len in Lt1, Lv1, Lt2, Lv2.
    rewrite Et, (Ot _ _ (elems t2)) in Wt1 by lia.
    rewrite Ev, (Ov _ _ (elems v2)) in Wv1 by lia.
    rewrite Wt1 in Wt2. rewrite Wv1 in Wv2.
    injection Wt2 as Ets Eelt. injection Wv2 as Evs Eelv.
    split; [unfold gen.sim; repeat split;
            (assumption || congruence || apply W1' || apply W2')|].
    split; [intros _|discriminate].
    split; [assumption|]. unfold gen.view. congruence.
  - exists false, s1, s2. rewrite !Next_exhausted by lia.
    split; [reflexivity|]. split; [reflexivity|].
    split; [unfold gen.sim; auto 10|]. split; [discriminate|auto].
Qed.

Lemma run_sim (ops : list op) :
  0 < DefaultMaxPointsPerBlock → overwrites →
  ∀ s1 s2, sim s1 s2 →
  ∃ rs1 rs2 s1' s2',
    run ops s1 = Some (rs1, s1') ∧ run ops s2 = Some (rs2, s2')
    ∧ mask <$> rs1 = mask <$> rs2
    ∧ (view (vals s1) = view (vals s2) → rs1 = rs2)
    ∧ (0 < count s1 → n s1 = count s1 →
       blank_until_next ops rs1 = blank_until_next ops rs2).
Proof.
  intros HB HO. induction ops as [|o ops IH]; intros s1 s2 Hs.
  - exists [], [], s1, s2. simpl. auto.
  - destruct o; simpl.
    + (* Reset *)
      assert (Hs' : sim (Reset s1) (Reset s2)).
      { destruct Hs as (Et & Ev & Ec & En & W1 & W2).
        unfold gen.sim; simpl. rewrite Et, Ev, Ec.
        repeat split; try reflexivity; first [apply W1 | apply W2]. }
      destruct (IH _ _ Hs') as (rs1 & rs2 & s1' & s2' & -> & -> & M & Q & R).
      simpl. eexists _, _, _, _. split; [reflexivity|]. split; [reflexivity|].
      rewrite !fmap_cons, M.
      split; [reflexivity|]. split; intros; f_equal; auto.
    + (* Next *)
      destruct (Next_sim s1 s2 HB HO Hs)
        as (b & s1' & s2' & -> & -> & Hs' & Ht & Hf).
      simpl.
      destruct (IH _ _ Hs') as (rs1 & rs2 & s1'' & s2'' & -> & -> & M & Q & R).
      simpl. eexists _, _, _, _. split; [reflexivity|]. split; [reflexivity|].
      rewrite !fmap_cons, M. split; [reflexivity|].
      destruct b.
      * destruct Ht as [_ Hv]; [reflexivity|]. rewrite (Q Hv). auto.
      * destruct Hf as (Hle & -> & ->); [reflexivity|].
        split; [intros Hv; rewrite (Q Hv); reflexivity|].
        intros Hc Hn. lia.
    + (* Values *)
      destruct (IH _ _ Hs) as (rs1 & rs2 & s1' & s2' & -> & -> & M & Q & R).
      simpl. eexists _, _, _, _. split; [reflexivity|]. split; [reflexivity|].
      rewrite !fmap_cons, M. split; [reflexivity|].
      split; [|intros; f_equal; auto].
      intros Hv. unfold gen.Values. rewrite Hv, (Q Hv). reflexivity.
    + (* ValueType *)
      destruct (IH _ _ Hs) as (rs1 & rs2 & s1' & s2' & -> & -> & M & Q & R).
      simpl. eexists _, _, _, _. split; [reflexivity|]. split; [reflexivity|].
      rewrite !fmap_cons, M.
      split; [reflexivity|]. split; intros; f_equal; auto.
Qed.

(** No operation changes the configured count. *)
Lemma run_count (ops : list op) :
  ∀ (s : timeValuesSequence) (rs : list obs) (s' : timeValuesSequence),
  run ops s = Some (rs, s') → count s' = count s.
Proof.
  induction ops as [|o ops IH]; intros s rs s' E; simpl in E.
  - injection E as _ <-. reflexivity.
  - destruct (gen.step k DefaultMaxPointsPerBlock o s) as [[r s1]|] eqn:E1;
      simpl in E; [|discriminate].
    destruct (gen.run k DefaultMaxPointsPerBlock ops s1) as [[rs1 s2]|] eqn:E2;
      simpl in E; [|discriminate].
    injection E as _ <-. rewrite (IH _ _ _ E2).
    destruct o; simpl in E1; try (injection E1 as _ <-; reflexivity).
    destruct (gen.Next k DefaultMaxPointsPerBlock s) as [[b s0]|] eqn:EN;
      simpl in E1; [|discriminate].
    injection E1 as _ <-. destruct b.
    + destruct (Next_true_inv s s0 EN) as (Hn & _).
      unfold gen.Next in EN. destruct (Z.ltb_spec 0 (n s)); [|lia].
      destruct (slice_to (Timestamps (vals s)) _); simpl in EN; [|discriminate].
      destruct (slice_to (Values_ (vals s)) _); simpl in EN; [|discriminate].
      destruct (TimestampSequence.Write _ _), (ValuesSequence.Write _ _).
      injection EN as <-. reflexivity.
    + unfold gen.Next in EN. destruct (Z.ltb_spec 0 (n s)).
      * destruct (slice_to (Timestamps (vals s)) _); simpl in EN;
          [|discriminate].
        destruct (slice_to (Values_ (vals s)) _); simpl in EN; [|discriminate].
        destruct (TimestampSequence.Write _ _), (ValuesSequence.Write _ _).
        discriminate.
      * injection EN as <-. reflexivity.
Qed.

(** With a count that is not positive, nothing ever writes the array. *)
Lemma run_exhausted_vals (ops : list op) :
  ∀ (s : timeValuesSequence) (rs : list obs) (s' : timeValuesSequence),
  count s ≤ 0 → n s ≤ 0 → run ops s = Some (rs, s') →
  vals s' = vals s ∧ count s' = count s.
Proof.
  induction ops as [|o ops IH]; intros s rs s' Hc Hn E; simpl in E.
  - injection E as _ <-. auto.
  - assert (S1 : ∃ r s1, step o s = Some (r, s1) ∧ vals s1 = vals s
                        ∧ count s1 = count s ∧ n s1 ≤ 0).
    { destruct o; simpl; try (eexists _, _; repeat split; eauto; fail).
      rewrite Next_exhausted by lia. simpl. eexists _, _; repeat split; eauto. }
    destruct S1 as (r & s1 & E1 & Hv1 & Hc1 & Hn1). rewrite E1 in E.
    simpl in E.
    destruct (gen.run k DefaultMaxPointsPerBlock ops s1) as [[rs1 s2]|] eqn:E2;
      simpl in E; [|discriminate].
    injection E as _ <-.
    destruct (IH s1 rs1 s2 ltac:(lia) Hn1 E2) as [Hv2 Hc2].
    split; congruence.
Qed.

(** Until the next [Next], the array stays as it is, and [Values] returns
    it. *)
Lemma run_stale (ops : list op) :
  ∀ s : timeValuesSequence, ONext ∉ ops →
  ∃ s', run ops s = Some (stale_obs s <$> ops, s') ∧ vals s' = vals s.
Proof.
  induction ops as [|o ops IH]; intros s Hno; simpl.
  - exists s. auto.
  - apply not_elem_of_cons in Hno as [Ho Hops].
    assert (S1 : ∃ s1, step o s = Some (stale_obs s o, s1)
                       ∧ vals s1 = vals s).
    { destruct o; simpl; try (eexists; split; reflexivity). congruence. }
    destruct S1 as (s1 & -> & Hv1). simpl.
    destruct (IH s1 Hops) as (s2 & -> & Hv2).
    assert (Hf : stale_obs s1 <$> ops = stale_obs s <$> ops).
    { apply list_fmap_ext. intros i o' _. unfold gen.stale_obs.
      rewrite Hv1. reflexivity. }
    rewrite Hf. simpl. exists s2. split; [reflexivity|congruence].
Qed.


(** The caller's loop is a run of [Next] calls: one returning true per
    block read, then one returning false. *)
Lemma drain_run (fuel : nat) :
  ∀ s bs s', drain fuel s = Some (bs, s') →
  run (replicate (S (length bs)) ONext) s
  = Some (replicate (length bs) (RBool true) ++ [RBool false], s').
Proof.
  induction fuel as [|fuel IH]; intros s bs s' E; [discriminate|].
  simpl in E. destruct (Next s) as [[[|] s1]|] eqn:EN; [| |discriminate].
  - destruct (drain fuel s1) as [[bs1 s2]|] eqn:ED; simpl in E;
      [|discriminate].
    injection E as <- <-. specialize (IH _ _ _ ED).
    change (replicate (S (length (view (Values s1) :: bs1))) ONext)
      with (ONext :: replicate (S (length bs1)) ONext).
    cbn [gen.run gen.step]. rewrite EN. simpl in IH |- *. rewrite IH. reflexivity.
  - injection E as <- <-. simpl. rewrite EN. reflexivity.
Qed.

(** *** More on the remaining count *)

Lemma step_shape (C : Z) (o : op) (s s' : timeValuesSequence) (r : obs) :
  0 < DefaultMaxPointsPerBlock → wf s → count s = C →
  (C ≤ 0 → n s = C) →
  (0 ≤ C → ∃ j, 0 ≤ j ∧ n s = Z.max 0 (C - j * DefaultMaxPointsPerBlock)) →
  step o s = Some (r, s') →
  count s' = C
  ∧ (C ≤ 0 → n s' = C)
  ∧ (0 ≤ C →
     ∃ j, 0 ≤ j ∧ n s' = Z.max 0 (C - j * DefaultMaxPointsPerBlock)).
Proof.
  intros HB Hwf Hc Hneg Hpos E. destruct o; simpl in E.
  - injection E as _ <-. simpl. split; [exact Hc|]. split; [intros; exact Hc|].
    intros HC. exists 0. rewrite Hc. lia.
  - destruct (Z.lt_ge_cases 0 (n s)) as [Hn|Hn].
    + destruct (Next_active s HB Hwf Hn)
        as (? & ? & s1 & E1 & _ & _ & _ & _ & _ & _ & _ & _ & En & Ec & _).
      rewrite E1 in E. simpl in E. injection E as _ <-.
      split; [congruence|]. split; [intros HC; specialize (Hneg HC); lia|].
      intros HC. destruct (Hpos HC) as (j & Hj & Ej).
      exists (j + 1). split; [lia|]. rewrite En. nia.
    + rewrite Next_exhausted in E by assumption. simpl in E.
      injection E as _ <-. auto.
  - injection E as _ <-. auto.
  - injection E as _ <-. auto.
Qed.

Lemma run_shape (C : Z) (ops : list op) :
  0 < DefaultMaxPointsPerBlock →
  ∀ (s0 : timeValuesSequence) (rs : list obs) (s : timeValuesSequence),
  wf s0 → count s0 = C → (C ≤ 0 → n s0 = C) →
  (0 ≤ C → ∃ j, 0 ≤ j ∧ n s0 = Z.max 0 (C - j * DefaultMaxPointsPerBlock)) →
  run ops s0 = Some (rs, s) →
  wf s ∧ count s = C ∧ (C ≤ 0 → n s = C)
  ∧ (0 ≤ C → ∃ j, 0 ≤ j ∧ n s = Z.max 0 (C - j * DefaultMaxPointsPerBlock)).
Proof.
  intros HB. induction ops as [|o ops IH];
    intros s0 rs s Hwf Hc Hneg Hpos E; simpl in E.
  - injection E as _ <-. auto.
  - destruct (gen.step k DefaultMaxPointsPerBlock o s0)
      as [[r s1]|] eqn:E1; simpl in E; [|discriminate].
    destruct (gen.run k DefaultMaxPointsPerBlock ops s1)
      as [[rs1 s2]|] eqn:E2; simpl in E; [|discriminate].
    injection E as _ <-.
    destruct (step_shape C o s0 s1 r HB Hwf Hc Hneg Hpos E1)
      as (Hc1 & Hneg1 & Hpos1).
    exact (IH s1 rs1 s2 (step_wf _ _ _ _ HB Hwf E1) Hc1 Hneg1 Hpos1 E2).
Qed.

Lemma run_shape_New (C : Z) (t0 : TS) (v0 : VS) (ops : list op)
    (rs : list obs) (s : timeValuesSequence) :
  0 < DefaultMaxPointsPerBlock →
  run ops (NewTimeValuesSequence C t0 v0) = Some (rs, s) →
  wf s ∧ count s = C ∧ (C ≤ 0 → n s = C)
  ∧ (0 ≤ C → ∃ j, 0 ≤ j ∧ n s = Z.max 0 (C - j * DefaultMaxPointsPerBlock)).
Proof.
  intros HB E.
  apply (run_shape C ops HB (NewTimeValuesSequence C t0 v0) rs s);
    [apply New_wf, HB | reflexivity | intros _; reflexivity | | exact E].
  intros HC. exists 0. simpl. lia.
Qed.

(** X1.  In every state reached from construction with count [C], the
    configured count is still [C] and both halves of the array still have
    the capacity [DefaultMaxPointsPerBlock] they were allocated with.  The
    remaining count is [C] itself when [C <= 0]; otherwise it is [C] less a
    whole number of full blocks, or zero: it never becomes negative and
    never exceeds [C]. *)
Theorem remaining_count_shape (C : Z) (t0 : TS) (v0 : VS) (ops : list op)
    (rs : list obs) (s : timeValuesSequence) :
  0 < DefaultMaxPointsPerBlock →
  run ops (NewTimeValuesSequence C t0 v0) = Some (rs, s) →
  count s = C
  ∧ cap (Timestamps (vals s)) = DefaultMaxPointsPerBlock
  ∧ cap (Values_ (vals s)) = DefaultMaxPointsPerBlock
  ∧ (C ≤ 0 → n s = C)
  ∧ (0 ≤ C →
     0 ≤ n s ≤ C
     ∧ ∃ j, 0 ≤ j ∧ n s = Z.max 0 (C - j * DefaultMaxPointsPerBlock)).
Proof.
  intros HB E.
  destruct (run_shape_New C t0 v0 ops rs s HB E)
    as ([Wt Wv] & Hc & Hneg & Hpos).
  split; [exact Hc|]. split; [exact Wt|]. split; [exact Wv|].
  split; [exact Hneg|]. intros HC. destruct (Hpos HC) as (j & Hj & Ej).
  split; [nia|]. exists j. auto.
Qed.

Lemma ceil_div_mono (a b d : Z) :
  0 < d → a ≤ b → ceil_div a d ≤ ceil_div b d.
Proof. intros Hd Hab. unfold ceil_div. apply Z.div_le_mono; lia. Qed.

(** X2.  Wherever a run from construction with count [C >= 0] has got to,
    the caller's loop picks up from there and reads exactly the blocks that
    are left: their lengths are those of the remaining count and add up to
    it.  After a [Reset] in that state the loop reads the whole count
    again, in the block lengths of a new sequence. *)
Theorem drain_resumes (C : Z) (t0 : TS) (v0 : VS) (ops : list op)
    (rs : list obs) (s : timeValuesSequence) (fuel : nat) :
  0 < DefaultMaxPointsPerBlock → 0 ≤ C →
  run ops (NewTimeValuesSequence C t0 v0) = Some (rs, s) →
  (Z.to_nat (ceil_div C DefaultMaxPointsPerBlock) < fuel)%nat →
  (∃ bs s',
     drain fuel s = Some (bs, s')
     ∧ gen.lengths k bs = block_sizes (n s) DefaultMaxPointsPerBlock
     ∧ sumZ (gen.lengths k bs) = n s
     ∧ n s' = 0)
  ∧ (∃ bs s',
       drain fuel (Reset s) = Some (bs, s')
       ∧ gen.lengths k bs = block_sizes C DefaultMaxPointsPerBlock
       ∧ sumZ (gen.lengths k bs) = C
       ∧ n s' = 0).
Proof.
  intros HB HC E Hf.
  destruct (run_shape_New C t0 v0 ops rs s HB E) as (Hwf & Hc & _ & Hpos).
  destruct (Hpos HC) as (j & Hj & Ej).
  assert (Hn0 : 0 ≤ n s) by lia.
  assert (HnC : n s ≤ C) by nia.
  split.
  - pose proof (ceil_div_mono (n s) C _ HB HnC) as Hm.
    pose proof (ceil_div_spec (n s) _ HB) as Hs.
    destruct (drain_spec fuel HB s Hwf Hn0) as (bs & s' & Ed & Hl & _ & Hn');
      [nia|].
    exists bs, s'. split; [exact Ed|]. split; [exact Hl|].
    split; [|exact Hn']. unfold gen.lengths. rewrite Hl.
    apply block_sizes_sum; assumption.
  - destruct (drain_spec fuel HB (Reset s) Hwf) as (bs & s' & Ed & Hl & _ & Hn').
    + simpl. lia.
    + simpl. rewrite Hc. exact Hf.
    + simpl in Hl. rewrite Hc in Hl.
      exists bs, s'. split; [exact Ed|]. split; [exact Hl|].
      split; [|exact Hn']. unfold gen.lengths. rewrite Hl.
      apply block_sizes_sum; assumption.
Qed.

(** X3.  If [Write] assigns every cell it is given, the blocks that the
    caller's loop reads from a new sequence are exactly what the two
    generators write, one [Write] each per block and in step, into buffers
    of the announced block lengths; and the sequence ends with the
    generators in the states those writes leave. *)
Theorem drain_is_generators (C : Z) (t0 : TS) (v0 : VS) (fuel : nat) :
  0 < DefaultMaxPointsPerBlock → 0 ≤ C → overwrites →
  (Z.to_nat (ceil_div C DefaultMaxPointsPerBlock) < fuel)%nat →
  ∃ s',
    drain fuel (NewTimeValuesSequence C t0 v0)
    = Some ((writes (block_sizes C DefaultMaxPointsPerBlock) t0 v0).1, s')
    ∧ (ts s', vs s')
      = (writes (block_sizes C DefaultMaxPointsPerBlock) t0 v0).2.
Proof.
  intros HB HC [Ot Ov] Hf.
  assert (G : ∀ fuel s, wf s → 0 ≤ n s →
            (Z.to_nat (ceil_div (n s) DefaultMaxPointsPerBlock) < fuel)%nat →
            ∃ s', drain fuel s
                  = Some ((writes (block_sizes (n s) DefaultMaxPointsPerBlock)
                             (ts s) (vs s)).1, s')
                  ∧ (ts s', vs s')
                    = (writes (block_sizes (n s) DefaultMaxPointsPerBlock)
                         (ts s) (vs s)).2).
  { clear fuel Hf. induction fuel as [|fuel IH]; intros s Hwf Hn Hf; [lia|].
    simpl. destruct (Z.eq_dec (n s) 0) as [H0|H0].
    - rewrite Next_exhausted by lia. exists s.
      rewrite H0, block_sizes_0 by lia. auto.
    - destruct (Next_active s HB Hwf ltac:(lia))
        as (tsl & vsl & s1 & E1 & _ & _ & Ll & Lv & Wt & Wv & _ & _ & En & _ & W1).
      rewrite E1.
      pose proof (ceil_div_step (n s) _ HB ltac:(lia)) as Hcd.
      pose proof (ceil_div_spec (n s - Z.min (n s) DefaultMaxPointsPerBlock)
                    _ HB).
      destruct (IH s1 W1) as (s2 & Ed & Efin); [lia | rewrite En; nia |].
      rewrite Ed. simpl. exists s2.
      rewrite (block_sizes_step (n s)) by lia. simpl.
      unfold len in Ll, Lv.
      rewrite (Ot (ts s) _ (elems tsl)), Wt
        by (rewrite length_replicate; lia).
      rewrite (Ov (vs s) _ (elems vsl)), Wv
        by (rewrite length_replicate; lia).
      rewrite <- En.
      destruct (gen.writes k (block_sizes (n s1) DefaultMaxPointsPerBlock)
                  (ts s1) (vs s1)) as [bs fin] eqn:Ew.
      simpl in Efin |- *. split; [reflexivity|exact Efin]. }
  apply (G fuel (NewTimeValuesSequence C t0 v0)); [apply New_wf, HB|exact HC|exact Hf].
Qed.

End TimeValuesSequence.

(** *** The generators of the scenario *)

Lemma scenario_overwrites : overwrites KInteger (TS := Z) (VS := Z).
Proof.
  split; intros st v1 v2 E.
  - change (counter_Write st v1 = counter_Write st v2).
    unfold counter_Write. do 3 f_equal; exact E.
  - change (constant_Write st v1 = constant_Write st v2).
    unfold constant_Write. do 2 f_equal; exact E.
Qed.

Lemma scenario_reachable (ops : list op) :
  is_Some (scenario_run ops) →
  reachable KInteger 100 (scenario_state ops).
Proof.
  unfold scenario_state. intros [[rs s] E]. rewrite E.
  exists 250%Z, 0%Z, 7%Z, ops, rs. exact E.
Qed.

(** *** Block arithmetic of a whole run *)

(** C1.  For a count [C >= 0] and a bound [B > 0], the caller's loop over a
    newly constructed sequence ends; [Next] returns true exactly
    [ceil (C / B)] times and then false; the lengths of the blocks read add
    up to [C]; every block has length [B] but possibly the last, whose
    length is [C mod B], or [B] when [B] divides [C].  With [C = 250] and
    [B = 100], four calls of [Next] return true, true, true, false and the
    blocks have lengths 100, 100, 50. *)
Theorem sequence_block_arithmetic :
  (∀ (k : kind) (TS VS : Type) (TSeq : TimestampSequence.t TS)
     (VSeq : ValuesSequence.t (valueOf k) VS)
     (B C : Z) (t0 : TS) (v0 : VS) (fuel : nat),
     (0 < B)%Z → (0 ≤ C)%Z → Z.to_nat (ceil_div C B) < fuel →
     let s0 := NewTimeValuesSequence k B C t0 v0 in
     ∃ bs s',
       drain k B fuel s0 = Some (bs, s')
       ∧ run k B (replicate (S (length bs)) ONext) s0
         = Some (replicate (length bs) (RBool true) ++ [RBool false], s')
       ∧ Z.of_nat (length bs) = ceil_div C B
       ∧ sumZ (lengths k bs) = C
       ∧ Forall (λ b, length b.1 = length b.2) bs
       ∧ ∀ i l, lengths k bs !! i = Some l →
           l = if decide (S i = length bs)
               then (if (C mod B =? 0)%Z then B else (C mod B)%Z)
               else B)
  ∧ scenario_results [ONext; ONext; ONext; ONext]
    = [RBool true; RBool true; RBool true; RBool false]
  ∧ scenario_lengths 4 = Some [100; 100; 50]%Z.
Proof.
  split; [|split; vm_compute; reflexivity].
  intros k TS VS TSeq VSeq B C t0 v0 fuel HB HC Hf s0.
  destruct (drain_spec k B fuel HB s0 (New_wf k B C t0 v0 HB) HC Hf)
    as (bs & s' & E & Hbs & Hlen & Hn).
  exists bs, s'. split; [exact E|]. split; [exact (drain_run k B fuel _ _ _ E)|].
  change (n k s0) with C in Hbs. fold (lengths k bs) in Hbs. rewrite Hbs.
  assert (L : length bs = length (block_sizes C B))
    by (rewrite <- Hbs; symmetry; apply length_fmap).
  split; [rewrite L; apply block_sizes_length; assumption|].
  split; [apply block_sizes_sum; assumption|].
  split; [exact Hlen|].
  intros i l Hl. rewrite L. apply block_sizes_lookup, Hl.
Qed.

Lemma sequence_block_arithmetic_witness :
  (0 < 100)%Z ∧ (0 ≤ 250)%Z ∧ Z.to_nat (ceil_div 250 100) < 4
  ∧ ∃ bs s',
      drain KInteger 100 4 scenario = Some (bs, s')
      ∧ run KInteger 100 (replicate (S (length bs)) ONext) scenario
        = Some (replicate (length bs) (RBool true) ++ [RBool false], s')
      ∧ Z.of_nat (length bs) = ceil_div 250 100
      ∧ sumZ (lengths KInteger bs) = 250%Z
      ∧ Forall (λ b, length b.1 = length b.2) bs
      ∧ ∀ i l, lengths KInteger bs !! i = Some l →
          l = if decide (S i = length bs)
              then (if (250 mod 100 =? 0)%Z then 100%Z else (250 mod 100)%Z)
              else 100%Z.
Proof.
  split; [reflexivity|]. split; [discriminate|].
  split; [vm_compute; lia|].
  apply (proj1 sequence_block_arithmetic KInteger Z Z _ _ 100%Z 250%Z 0%Z 7%Z 4);
    [reflexivity | discriminate | vm_compute; lia].
Defined.

(** *** The theorems at the scenario *)

(** The first call of [Next] in the scenario. *)
Lemma Next_emits_block_witness :
  (0 < 100)%Z ∧ reachable KInteger 100 scenario ∧ (0 < n KInteger scenario)%Z
  ∧ ∃ tsl vsl s',
      Next KInteger 100 scenario = Some (true, s')
      ∧ n KInteger s' = (250 - 250 `min` 100)%Z
      ∧ count KInteger s' = 250%Z
      ∧ slice_to (Timestamps KInteger (vals KInteger scenario)) (250 `min` 100)
        = Some tsl
      ∧ slice_to (Values_ KInteger (vals KInteger scenario)) (250 `min` 100)
        = Some vsl
      ∧ len (Timestamps KInteger (vals KInteger s')) = (250 `min` 100)%Z
      ∧ len (Values_ KInteger (vals KInteger s')) = (250 `min` 100)%Z
      ∧ (ts KInteger s', elems (Timestamps KInteger (vals KInteger s')))
        = TimestampSequence.Write (ts KInteger scenario) (elems tsl)
      ∧ (vs KInteger s', elems (Values_ KInteger (vals KInteger s')))
        = ValuesSequence.Write (vs KInteger scenario) (elems vsl).
Proof.
  assert (R : reachable KInteger 100 scenario)
    by (exists 250%Z, 0%Z, 7%Z, [], []; reflexivity).
  split; [reflexivity|]. split; [exact R|]. split; [reflexivity|].
  exact (Next_emits_block KInteger 100 scenario eq_refl R eq_refl).
Defined.

(** The scenario after its three blocks. *)
Lemma exhausted_is_terminal_witness :
  let s := scenario_state [ONext; ONext; ONext] in
  n KInteger s = 0%Z
  ∧ Next KInteger 100 s = Some (false, s)
  ∧ (∀ ops, OReset ∉ ops →
       run KInteger 100 ops s = Some (exhausted_obs KInteger s <$> ops, s))
  ∧ ∃ s', Next KInteger 100 (Reset KInteger s) = Some (true, s').
Proof.
  intros s.
  assert (H0 : n KInteger s = 0%Z) by (vm_compute; reflexivity).
  destruct (exhausted_is_terminal KInteger 100 s H0) as (HN & Hrun & Hreset).
  split; [exact H0|]. split; [exact HN|]. split; [exact Hrun|].
  apply Hreset; [reflexivity | | vm_compute; reflexivity].
  apply scenario_reachable. vm_compute. eauto.
Defined.

Lemma array_lengths_invariant_witness :
  (0 < 100)%Z
  ∧ ∃ rs s,
      run KInteger 100 [ONext; OValues; OReset; ONext; ONext; ONext; ONext]
        scenario = Some (rs, s)
      ∧ len (Timestamps KInteger (vals KInteger s))
        = len (Values_ KInteger (vals KInteger s))
      ∧ (len (Timestamps KInteger (vals KInteger s)) ≤ 100)%Z.
Proof.
  split; [reflexivity|].
  exact (array_lengths_invariant KInteger 100 250%Z 0%Z 7%Z
           [ONext; OValues; OReset; ONext; ONext; ONext; ONext] eq_refl).
Defined.

(** The third block of the scenario, read after two more calls. *)
Lemma Values_after_exhaustion_witness :
  let s := scenario_state [ONext; ONext] in
  let s1 := scenario_state [ONext; ONext; ONext] in
  let s2 := scenario_state [ONext; ONext; ONext; ONext; OValueType; ONext] in
  Next KInteger 100 s = Some (true, s1)
  ∧ run KInteger 100 ([ONext; OValueType] ++ [ONext]) s1
    = Some ([RBool false; RType models.Integer] ++ [RBool false], s2)
  ∧ never_true KInteger [RBool false; RType models.Integer]
  ∧ Values KInteger s2 = Values KInteger s1
  ∧ step KInteger 100 OValues s2
    = Some (RValues (view KInteger (Values KInteger s1)), s2)
  ∧ (0 < block_len KInteger (view KInteger (Values KInteger s2)))%Z
  ∧ Values KInteger s2 = vals KInteger s1
  ∧ ∃ tsl vsl,
      slice_to (Timestamps KInteger (vals KInteger s))
        (n KInteger s `min` 100)%Z = Some tsl
      ∧ slice_to (Values_ KInteger (vals KInteger s))
          (n KInteger s `min` 100)%Z = Some vsl
      ∧ Values KInteger s2
        = TypedArray KInteger
            (store tsl
               (TimestampSequence.Write (ts KInteger s) (elems tsl)).2)
            (store vsl (ValuesSequence.Write (vs KInteger s) (elems vsl)).2)
      ∧ view KInteger (Values KInteger s2)
        = ((TimestampSequence.Write (ts KInteger s) (elems tsl)).2,
           (ValuesSequence.Write (vs KInteger s) (elems vsl)).2)
      ∧ view KInteger (Values KInteger s2)
        = (seqZ 200 50, replicate 50 7%Z).
Proof.
  intros s s1 s2.
  assert (E1 : Next KInteger 100 s = Some (true, s1))
    by (vm_compute; reflexivity).
  assert (E2 : run KInteger 100 ([ONext; OValueType] ++ [ONext]) s1
               = Some ([RBool false; RType models.Integer] ++ [RBool false], s2))
    by (vm_compute; reflexivity).
  assert (Hn : never_true KInteger [RBool false; RType models.Integer]).
  { intros Hin. apply elem_of_cons in Hin as [Hin|Hin]; [discriminate|].
    apply list_elem_of_singleton in Hin. discriminate. }
  destruct (Values_after_exhaustion KInteger 100 s s1 s2 _ _ E1 E2 Hn)
    as (HV & HS & Hpos & Hvals & Hblock).
  split; [exact E1|]. split; [exact E2|]. split; [exact Hn|].
  split; [exact HV|]. split; [exact HS|].
  split; [apply Hpos; [reflexivity|]; apply scenario_reachable;
          vm_compute; eauto|].
  split; [exact Hvals|].
  destruct Hblock as (tsl & vsl & Et & Ev & HA & HB).
  exists tsl, vsl. split; [exact Et|]. split; [exact Ev|].
  split; [exact HA|]. split; [exact HB|]. vm_compute. reflexivity.
Defined.

Lemma nonpositive_count_never_emits_witness :
  (-5 ≤ 0)%Z
  ∧ let s0 := NewTimeIntegerValuesSequence 100 (-5) 0%Z 7%Z in
    Next KInteger 100 s0 = Some (false, s0)
    ∧ drain KInteger 100 1 s0 = Some ([], s0)
    ∧ Next KInteger 100 (Reset KInteger s0) = Some (false, Reset KInteger s0)
    ∧ ∀ ops, ∃ rs s,
        run KInteger 100 ops s0 = Some (rs, s) ∧ never_true KInteger rs
        ∧ n KInteger s = (-5)%Z.
Proof.
  split; [discriminate|].
  apply (nonpositive_count_never_emits KInteger 100 (-5)%Z 0%Z 7%Z).
  discriminate.
Defined.

(** *** What [Reset] does not restore *)



(** *** The further theorems at the scenario *)

Lemma remaining_count_shape_witness :
  let ops := [ONext; OValues; OReset; ONext; ONext] in
  let s := scenario_state ops in
  (0 < 100)%Z
  ∧ run KInteger 100 ops scenario = Some (scenario_results ops, s)
  ∧ count KInteger s = 250%Z
  ∧ cap (Timestamps KInteger (vals KInteger s)) = 100%Z
  ∧ cap (Values_ KInteger (vals KInteger s)) = 100%Z
  ∧ (0 ≤ n KInteger s ≤ 250)%Z.
Proof.
  intros ops s.
  assert (E : run KInteger 100 ops scenario = Some (scenario_results ops, s))
    by (vm_compute; reflexivity).
  destruct (remaining_count_shape KInteger 100 250%Z 0%Z 7%Z ops
              (scenario_results ops) s eq_refl E)
    as (Hc & Wt & Wv & _ & Hpos).
  split; [reflexivity|]. split; [exact E|]. split; [exact Hc|].
  split; [exact Wt|]. split; [exact Wv|].
  apply Hpos. discriminate.
Defined.

Lemma drain_resumes_witness :
  let ops := [ONext; OValues] in
  let s := scenario_state ops in
  (0 < 100)%Z ∧ (0 ≤ 250)%Z
  ∧ run KInteger 100 ops scenario = Some (scenario_results ops, s)
  ∧ Z.to_nat (ceil_div 250 100) < 4
  ∧ (∃ bs s',
       drain KInteger 100 4 s = Some (bs, s')
       ∧ lengths KInteger bs = block_sizes (n KInteger s) 100
       ∧ sumZ (lengths KInteger bs) = n KInteger s
       ∧ n KInteger s' = 0%Z)
  ∧ (∃ bs s',
       drain KInteger 100 4 (Reset KInteger s) = Some (bs, s')
       ∧ lengths KInteger bs = block_sizes 250 100
       ∧ sumZ (lengths KInteger bs) = 250%Z
       ∧ n KInteger s' = 0%Z).
Proof.
  intros ops s.
  assert (E : run KInteger 100 ops scenario = Some (scenario_results ops, s))
    by (vm_compute; reflexivity).
  assert (F : Z.to_nat (ceil_div 250 100) < 4) by (vm_compute; lia).
  split; [reflexivity|]. split; [discriminate|]. split; [exact E|].
  split; [exact F|].
  apply (drain_resumes KInteger 100 250%Z 0%Z 7%Z ops (scenario_results ops)
           s 4 eq_refl);
    [discriminate | exact E | exact F].
Defined.

Lemma drain_is_generators_witness :
  (0 < 100)%Z ∧ (0 ≤ 250)%Z
  ∧ overwrites KInteger (TS := Z) (VS := Z)
  ∧ Z.to_nat (ceil_div 250 100) < 4
  ∧ ∃ s',
      drain KInteger 100 4 scenario
      = Some ((writes KInteger (block_sizes 250 100) 0%Z 7%Z).1, s')
      ∧ (ts KInteger s', vs KInteger s')
        = (writes KInteger (block_sizes 250 100) 0%Z 7%Z).2.
Proof.
  assert (F : Z.to_nat (ceil_div 250 100) < 4) by (vm_compute; lia).
  split; [reflexivity|]. split; [discriminate|].
  split; [exact scenario_overwrites|]. split; [exact F|].
  apply (drain_is_generators KInteger 100 250%Z 0%Z 7%Z 4 eq_refl);
    [discriminate | exact scenario_overwrites | exact F].
Defined.

End gen_proofs.

(** ** The array cursor iterator *)

Module tsm1_proofs.
Import tsm1.

Section ArrayCursorIterator.

Context {Engine Context_ Name Tags Field Key CacheValues KeyCursor
         IteratorOptions Err CursorState : Type}.
Context (Ascending : IteratorOptions → bool).
Context (SeekTime StopTime : IteratorOptions → Z).
Context (seriesFieldKeyBytes : Key → Name → Tags → Field → Key).
Context (Cache_Values : Engine → Key → CacheValues).
Context (Engine_KeyCursor : Engine → Context_ → Key → Z → bool → KeyCursor).
Context (newArrayCursor : kind → bool → CursorState).
Context (reset : kind → bool → CursorState → Z → Z → CacheValues → KeyCursor
                 → CursorState * option Err).

Local Abbreviation arrayCursorIterator :=
  (tsm1.arrayCursorIterator (Engine := Engine) (Key := Key)).
Local Abbreviation state :=
  (tsm1.state (Engine := Engine) (Key := Key) (CursorState := CursorState)).
Local Abbreviation result := (tsm1.result (Err := Err)).
Local Abbreviation call :=
  (tsm1.call (Context_ := Context_) (Name := Name) (Tags := Tags)
     (Field := Field) (IteratorOptions := IteratorOptions)).
Local Abbreviation call_reset := (tsm1.call_reset reset).
Local Abbreviation buildArrayCursor :=
  (tsm1.buildArrayCursor Ascending SeekTime StopTime seriesFieldKeyBytes
     Cache_Values Engine_KeyCursor newArrayCursor reset).
Local Abbreviation build :=
  (tsm1.build Ascending SeekTime StopTime seriesFieldKeyBytes
     Cache_Values Engine_KeyCursor newArrayCursor reset).
Local Abbreviation builds :=
  (tsm1.builds Ascending SeekTime StopTime seriesFieldKeyBytes
     Cache_Values Engine_KeyCursor newArrayCursor reset).
Local Abbreviation reset_of :=
  (tsm1.reset_of Ascending SeekTime StopTime seriesFieldKeyBytes
     Cache_Values Engine_KeyCursor reset).

(** *** Slots *)

Lemma get_set_eq (t : kind) (p : option nat) (c : cursors) :
  get t (set t p c) = p.
Proof. destruct t; reflexivity. Qed.

Lemma get_set_ne (t t' : kind) (p : option nat) (c : cursors) :
  t ≠ t' → get t' (set t p c) = get t' c.
Proof. destruct t, t'; (reflexivity || congruence). Qed.

Lemma set_get_id (t : kind) (c : cursors) : set t (get t c) c = c.
Proof. destruct c, t; reflexivity. Qed.

Lemma set_slot_id (t : kind) (d : bool) (l : nat) (q0 : arrayCursorIterator) :
  get t (pool d q0) = Some l → set_slot t d (Some l) q0 = q0.
Proof.
  unfold set_slot, pool. destruct d; intros <-; rewrite set_get_id;
    destruct q0; reflexivity.
Qed.

Lemma get_set_slot (t t' : kind) (d d' : bool) (p : option nat)
    (q0 : arrayCursorIterator) :
  get t' (pool d' (set_slot t d p q0))
  = if decide (t' = t ∧ d' = d) then p else get t' (pool d' q0).
Proof.
  destruct (decide (t' = t ∧ d' = d)) as [[-> ->]|Hne].
  - destruct d; simpl; apply get_set_eq.
  - destruct d, d'; simpl; try reflexivity;
      (destruct (decide (t = t')) as [->|Ht];
       [exfalso; apply Hne; split; reflexivity | apply get_set_ne, Ht]).
Qed.

(** *** One build *)

Lemma buildArrayCursor_spec (t : kind) (σ : state)
    (ctx : Context_) (name : Name) (tags : Tags) (field : Field)
    (opt : IteratorOptions) :
  wf σ →
  let d := Ascending opt in
  let k := seriesFieldKeyBytes (key (q σ)) name tags field in
  ∃ l obj obj' r,
    (get t (pool d (q σ)) = None ∧ heap σ !! l = None
     ∧ obj = newArrayCursor t d
     ∨ get t (pool d (q σ)) = Some l ∧ heap σ !! l = Some obj)
    ∧ reset_of t σ (Call t ctx name tags field opt) obj = (obj', r)
    ∧ buildArrayCursor t σ ctx name tags field opt
      = Some (result_of l r,
              State (<[l := obj']> (heap σ))
                    (set_slot t d (Some l) (set_key k (q σ)))).
Proof.
  intros Hwf d k. subst d. unfold tsm1.buildArrayCursor, tsm1.reset_of. simpl.
  fold k.
  destruct (Ascending opt) eqn:Ed; simpl.
  - destruct (get t (asc (q σ))) as [l|] eqn:Eg.
    + destruct (Hwf t true l Eg) as [obj Eo]. simpl. rewrite Eg. simpl.
      unfold tsm1.call_reset. rewrite Eo. simpl.
      destruct (reset _ _ _ _ _ _ _) as [obj' r] eqn:Er.
      exists l, obj, obj', r. split; [right; auto|]. split; [exact Er|].
      rewrite (set_slot_id t true l (set_key k (q σ))) by exact Eg.
      destruct r; simpl; rewrite ?Eg; reflexivity.
    + unfold alloc. set (l := fresh (dom (heap σ))). simpl.
      rewrite get_set_eq. simpl. unfold tsm1.call_reset.
      rewrite lookup_insert_eq. simpl.
      destruct (reset _ _ _ _ _ _ _) as [obj' r] eqn:Er.
      exists l, (newArrayCursor t true), obj', r.
      split; [left; split; [reflexivity|split; [|reflexivity]]|].
      { apply not_elem_of_dom, is_fresh. }
      split; [exact Er|]. rewrite insert_insert_eq.
      destruct r; simpl; rewrite ?get_set_eq; reflexivity.
  - destruct (get t (desc (q σ))) as [l|] eqn:Eg.
    + destruct (Hwf t false l Eg) as [obj Eo]. simpl. rewrite Eg. simpl.
      unfold tsm1.call_reset. rewrite Eo. simpl.
      destruct (reset _ _ _ _ _ _ _) as [obj' r] eqn:Er.
      exists l, obj, obj', r. split; [right; auto|]. split; [exact Er|].
      rewrite (set_slot_id t false l (set_key k (q σ))) by exact Eg.
      destruct r; simpl; rewrite ?Eg; reflexivity.
    + unfold alloc. set (l := fresh (dom (heap σ))). simpl.
      rewrite get_set_eq. simpl. unfold tsm1.call_reset.
      rewrite lookup_insert_eq. simpl.
      destruct (reset _ _ _ _ _ _ _) as [obj' r] eqn:Er.
      exists l, (newArrayCursor t false), obj', r.
      split; [left; split; [reflexivity|split; [|reflexivity]]|].
      { apply not_elem_of_dom, is_fresh. }
      split; [exact Er|]. rewrite insert_insert_eq.
      destruct r; simpl; rewrite ?get_set_eq; reflexivity.
Qed.

Lemma pool_set_key (d : bool) (k : Key) (q0 : arrayCursorIterator) :
  pool d (set_key k q0) = pool d q0.
Proof. destruct d; reflexivity. Qed.

Lemma build_unfold (c : call) (σ : state) :
  build c σ
  = buildArrayCursor (call_kind c) σ (call_ctx c) (call_name c) (call_tags c)
      (call_field c) (call_opt c).
Proof. unfold tsm1.build. destruct (call_kind c); reflexivity. Qed.

(** Everything a build does, in one statement: the cursor [l] of its slot,
    the object [obj] that [reset] is called on, what [reset] makes of it,
    and the state the build leaves. *)
Lemma build_spec (c : call) (σ : state) :
  wf σ →
  let t := call_kind c in
  let d := Ascending (call_opt c) in
  let k := seriesFieldKeyBytes (key (q σ)) (call_name c) (call_tags c)
             (call_field c) in
  ∃ l obj obj' r σ',
    build c σ = Some (result_of l r, σ')
    ∧ (get t (pool d (q σ)) = None ∧ heap σ !! l = None
       ∧ obj = newArrayCursor t d
       ∨ get t (pool d (q σ)) = Some l ∧ heap σ !! l = Some obj)
    ∧ reset_of t σ c obj = (obj', r)
    ∧ heap σ' = <[l := obj']> (heap σ)
    ∧ q σ' = set_slot t d (Some l) (set_key k (q σ))
    ∧ wf σ'.
Proof.
  intros Hwf t d k. rewrite build_unfold.
  destruct (buildArrayCursor_spec (call_kind c) σ (call_ctx c) (call_name c)
              (call_tags c) (call_field c) (call_opt c) Hwf)
    as (l & obj & obj' & r & Hslot & Hr & E).
  fold t d k in Hslot, E. destruct c as [t0 ctx name tags field opt].
  simpl in *. exists l, obj, obj', r. eexists. split; [exact E|].
  split; [exact Hslot|]. split; [exact Hr|]. do 2 (split; [reflexivity|]).
  intros t' d' l' Hg. simpl in Hg |- *. rewrite get_set_slot in Hg.
  destruct (decide (l' = l)) as [->|Hne].
  - rewrite lookup_insert_eq. eauto.
  - rewrite lookup_insert_ne by congruence.
    destruct (decide _) as [_|_]; [congruence|].
    rewrite pool_set_key in Hg. exact (Hwf t' d' l' Hg).
Qed.

Lemma dom_after_build (h : gmap nat CursorState) (l : nat)
    (obj obj' : CursorState) :
  h !! l = Some obj → dom (<[l := obj']> h) = dom h.
Proof.
  intros Hl. apply dom_insert_lookup_L. eauto.
Qed.

(** A populated slot keeps its pointer through any build. *)
Lemma build_keeps_slot (c : call) (σ σ' : state) (r : result)
    (t : kind) (d : bool) (l : nat) :
  wf σ → build c σ = Some (r, σ') →
  get t (pool d (q σ)) = Some l →
  get t (pool d (q σ')) = Some l ∧ wf σ'.
Proof.
  intros Hwf E Hg.
  destruct (build_spec c σ Hwf)
    as (l1 & obj & obj' & r1 & σ1 & E1 & Hslot & _ & _ & Hq & Hwf').
  rewrite E in E1. injection E1 as Hres <-. split; [|exact Hwf'].
  rewrite Hq, get_set_slot.
  destruct (decide _) as [[-> ->]|_]; [|exact Hg].
  destruct Hslot as [(Hn & _)|(Hs & _)]; congruence.
Qed.

Lemma builds_keeps_slot (cs : list call) :
  ∀ (σ σ' : state) (rs : list result) (t : kind) (d : bool) (l : nat),
  wf σ → builds cs σ = Some (rs, σ') →
  get t (pool d (q σ)) = Some l →
  get t (pool d (q σ')) = Some l ∧ wf σ'.
Proof.
  induction cs as [|c cs IH]; intros σ σ' rs t d l Hwf E Hg; simpl in E.
  - injection E as _ <-. auto.
  - destruct (build c σ) as [[r σ1]|] eqn:E1; simpl in E; [|discriminate].
    destruct (builds cs σ1) as [[rs1 σ2]|] eqn:E2; simpl in E; [|discriminate].
    injection E as _ <-.
    destruct (build_keeps_slot c σ σ1 r t d l Hwf E1 Hg) as [Hg1 Hwf1].
    exact (IH _ _ _ _ _ _ Hwf1 E2 Hg1).
Qed.

(** No sequence of builds gets stuck. *)
Lemma builds_total (cs : list call) :
  ∀ σ, wf σ → ∃ rs σ', builds cs σ = Some (rs, σ') ∧ wf σ'.
Proof.
  induction cs as [|c cs IH]; intros σ Hwf; simpl; [eauto|].
  destruct (build_spec c σ Hwf)
    as (l & obj & obj' & r & σ1 & -> & _ & _ & _ & _ & Hwf1).
  simpl. destruct (IH σ1 Hwf1) as (rs & σ2 & -> & Hwf2). simpl. eauto.
Qed.

(** A build on a populated slot: the same pointer, no allocation. *)
Lemma build_populated (c : call) (σ : state) (l : nat) :
  wf σ →
  get (call_kind c) (pool (Ascending (call_opt c)) (q σ)) = Some l →
  ∃ obj obj' r σ',
    build c σ = Some (result_of l r, σ')
    ∧ heap σ !! l = Some obj
    ∧ reset_of (call_kind c) σ c obj = (obj', r)
    ∧ heap σ' !! l = Some obj'
    ∧ dom (heap σ') = dom (heap σ)
    ∧ get (call_kind c) (pool (Ascending (call_opt c)) (q σ')) = Some l.
Proof.
  intros Hwf Hg.
  destruct (build_spec c σ Hwf)
    as (l1 & obj & obj' & r & σ' & E & Hslot & Hr & Hh & Hq & Hwf').
  destruct Hslot as [(Hn & _)|(Hs & Ho)]; [congruence|].
  assert (l1 = l) as -> by congruence.
  exists obj, obj', r, σ'. split; [exact E|]. split; [exact Ho|].
  split; [exact Hr|]. rewrite Hh, Hq.
  split; [apply lookup_insert_eq|].
  split; [exact (dom_after_build _ _ _ _ Ho)|].
  rewrite get_set_slot. destruct (decide _) as [_|Hne]; [reflexivity|].
  exfalso. apply Hne. auto.
Qed.

(** *** The pool *)

(** C5.  A build leaves the slot of its value type and direction populated.
    If the slot was nil, the cursor in it is a newly allocated object; if
    not, the pointer is the one that was there and nothing is allocated.  A
    successful build returns the pointer of the slot.  After any further
    builds, a successful build for the same value type and direction returns
    that same pointer, allocates nothing, and the object it points to is
    what [reset] made of the object that was there. *)
Theorem pooled_cursor_is_reused (c : call) (σ : state) :
  wf σ →
  let t := call_kind c in
  let d := Ascending (call_opt c) in
  ∃ r σ' l,
    build c σ = Some (r, σ')
    ∧ get t (pool d (q σ')) = Some l
    ∧ (get t (pool d (q σ)) = None →
       heap σ !! l = None ∧ dom (heap σ') = {[l]} ∪ dom (heap σ))
    ∧ (∀ l0, get t (pool d (q σ)) = Some l0 →
       l0 = l ∧ dom (heap σ') = dom (heap σ))
    ∧ (r.2 = None → r.1 = Some l)
    ∧ ∀ cs rs σ2 c' r' σ3,
        builds cs σ' = Some (rs, σ2) →
        call_kind c' = t → Ascending (call_opt c') = d →
        build c' σ2 = Some (r', σ3) → r'.2 = None →
        r'.1 = Some l
        ∧ dom (heap σ3) = dom (heap σ2)
        ∧ ∃ obj, heap σ2 !! l = Some obj
                 ∧ heap σ3 !! l = Some (reset_of t σ2 c' obj).1.
Proof.
  intros Hwf t d.
  destruct (build_spec c σ Hwf)
    as (l & obj & obj' & r & σ' & E & Hslot & Hr & Hh & Hq & Hwf').
  fold t d in Hslot, Hq.
  assert (Hg' : get t (pool d (q σ')) = Some l).
  { rewrite Hq, get_set_slot. destruct (decide _) as [_|Hne]; [reflexivity|].
    exfalso. apply Hne. auto. }
  exists (result_of l r), σ', l. split; [exact E|]. split; [exact Hg'|].
  split; [|split; [|split]].
  - intros Hn. destruct Hslot as [(_ & Hl & _)|(Hs & _)]; [|congruence].
    split; [exact Hl|]. rewrite Hh. apply dom_insert_L.
  - intros l0 Hs0. destruct Hslot as [(Hn & _)|(Hs & Ho)]; [congruence|].
    split; [congruence|]. rewrite Hh. exact (dom_after_build _ _ _ _ Ho).
  - destruct r; simpl; [discriminate|reflexivity].
  - intros cs rs σ2 c' r' σ3 Ebs Ht Hd E' Hok.
    destruct (builds_keeps_slot cs σ' σ2 rs t d l Hwf' Ebs Hg') as [Hg2 Hwf2].
    rewrite <- Ht, <- Hd in Hg2.
    destruct (build_populated c' σ2 l Hwf2 Hg2)
      as (o & o' & r2 & σ3' & E2 & Ho & Hr2 & Ho' & Hdom & _).
    rewrite E' in E2. injection E2 as -> <-.
    destruct r2; simpl in Hok; [discriminate|].
    split; [reflexivity|]. split; [exact Hdom|].
    exists o. split; [exact Ho|]. rewrite <- Ht, Hr2. exact Ho'.
Qed.

(** C6.  Each of the five builds returns either the error of [reset] and a
    nil cursor, or a nil error and the pointer of the slot, whose object is
    then the one [reset] left; never an error together with a cursor. *)
Theorem build_returns_error_or_cursor (c : call) (σ : state) :
  wf σ →
  let t := call_kind c in
  let d := Ascending (call_opt c) in
  ∃ l obj obj' r res σ',
    build c σ = Some (res, σ')
    ∧ (get t (pool d (q σ)) = None ∧ obj = newArrayCursor t d
       ∨ get t (pool d (q σ)) = Some l ∧ heap σ !! l = Some obj)
    ∧ reset_of t σ c obj = (obj', r)
    ∧ (∀ er, r = Some er → res = (None, Some er))
    ∧ (r = None →
       res = (Some l, None) ∧ get t (pool d (q σ')) = Some l
       ∧ heap σ' !! l = Some obj')
    ∧ ¬ (is_Some res.1 ∧ is_Some res.2).
Proof.
  intros Hwf t d.
  destruct (build_spec c σ Hwf)
    as (l & obj & obj' & r & σ' & E & Hslot & Hr & Hh & Hq & Hwf').
  fold t d in Hslot, Hq.
  exists l, obj, obj', r, (result_of l r), σ'. split; [exact E|].
  split; [destruct Hslot as [(? & _ & ?)|?]; auto|]. split; [exact Hr|].
  split; [intros er ->; reflexivity|]. split.
  - intros ->. split; [reflexivity|]. rewrite Hh, Hq.
    split; [|apply lookup_insert_eq].
    rewrite get_set_slot. destruct (decide _) as [_|Hne]; [reflexivity|].
    exfalso. apply Hne. auto.
  - destruct r; simpl; intros [[? H1] [? H2]]; discriminate.
Qed.

(** C10 (as amended).  When a build fails, the slot of its value type and
    direction is populated all the same, with the pointer that was there or
    with a newly allocated object.  The iterator after the build is the
    iterator before it with the key buffer as [seriesFieldKeyBytes] left it
    and that one slot set: the engine and the nine other slots are
    unchanged, and so are all cursor objects but the one of the slot.  After
    any further builds, a build for the same value type and direction uses
    that same pointer and allocates nothing. *)
Theorem failed_build_keeps_slot (c : call) (σ σ' : state) (er : Err) :
  wf σ →
  build c σ = Some ((None, Some er), σ') →
  let t := call_kind c in
  let d := Ascending (call_opt c) in
  let k := seriesFieldKeyBytes (key (q σ)) (call_name c) (call_tags c)
             (call_field c) in
  ∃ l,
    get t (pool d (q σ')) = Some l
    ∧ (get t (pool d (q σ)) = None → heap σ !! l = None)
    ∧ (∀ l0, get t (pool d (q σ)) = Some l0 → l0 = l)
    ∧ q σ' = set_slot t d (Some l) (set_key k (q σ))
    ∧ key (q σ') = k
    ∧ e (q σ') = e (q σ)
    ∧ (∀ t' d', ¬ (t' = t ∧ d' = d) →
       get t' (pool d' (q σ')) = get t' (pool d' (q σ)))
    ∧ (∀ l', l' ≠ l → heap σ' !! l' = heap σ !! l')
    ∧ ∀ cs rs σ2 c',
        builds cs σ' = Some (rs, σ2) →
        call_kind c' = t → Ascending (call_opt c') = d →
        ∃ r' σ3,
          build c' σ2 = Some (r', σ3)
          ∧ get t (pool d (q σ3)) = Some l
          ∧ dom (heap σ3) = dom (heap σ2)
          ∧ (r'.2 = None → r'.1 = Some l).
Proof.
  intros Hwf E t d k.
  destruct (build_spec c σ Hwf)
    as (l & obj & obj' & r & σ1 & E1 & Hslot & Hr & Hh & Hq & Hwf').
  fold t d k in Hslot, Hq. rewrite E in E1. injection E1 as Hres <-.
  assert (Hg' : get t (pool d (q σ')) = Some l).
  { rewrite Hq, get_set_slot. destruct (decide _) as [_|Hne]; [reflexivity|].
    exfalso. apply Hne. auto. }
  exists l. split; [exact Hg'|].
  split; [intros Hn; destruct Hslot as [(_ & Hl & _)|(Hs & _)];
          [exact Hl|congruence]|].
  split; [intros l0 Hs0; destruct Hslot as [(Hn & _)|(Hs & _)]; congruence|].
  split; [exact Hq|].
  split; [rewrite Hq; destruct d; reflexivity|].
  split; [rewrite Hq; destruct d; reflexivity|].
  split; [intros t' d' Hne; rewrite Hq, get_set_slot, pool_set_key;
          destruct (decide _); [contradiction|reflexivity]|].
  split; [intros l' Hne; rewrite Hh; apply lookup_insert_ne; congruence|].
  intros cs rs σ2 c' Ebs Ht Hd.
  destruct (builds_keeps_slot cs σ' σ2 rs t d l Hwf' Ebs Hg') as [Hg2 Hwf2].
  rewrite <- Ht, <- Hd in Hg2.
  destruct (build_populated c' σ2 l Hwf2 Hg2)
    as (o & o' & r2 & σ3 & E2 & _ & _ & _ & Hdom & Hg3).
  rewrite Ht, Hd in Hg3.
  exists (result_of l r2), σ3. split; [exact E2|]. split; [exact Hg3|].
  split; [exact Hdom|]. destruct r2; simpl; [discriminate|reflexivity].
Qed.

(** *** Every build, whatever its outcome *)

(** X4.  A build, successful or not, changes of the iterator the key
    buffer, which is as [seriesFieldKeyBytes] left it, and one slot, the one
    of its value type and direction; and it changes one cursor object, the
    one of that slot.  The engine, the nine other slots and every other
    cursor object are as before, and no cursor object disappears. *)
Theorem build_touches_one_slot (c : call) (σ σ' : state) (r : result) :
  wf σ →
  build c σ = Some (r, σ') →
  let t := call_kind c in
  let d := Ascending (call_opt c) in
  let k := seriesFieldKeyBytes (key (q σ)) (call_name c) (call_tags c)
             (call_field c) in
  ∃ l,
    q σ' = set_slot t d (Some l) (set_key k (q σ))
    ∧ key (q σ') = k
    ∧ e (q σ') = e (q σ)
    ∧ (∀ t' d', ¬ (t' = t ∧ d' = d) →
       get t' (pool d' (q σ')) = get t' (pool d' (q σ)))
    ∧ (∀ l', l' ≠ l → heap σ' !! l' = heap σ !! l')
    ∧ dom (heap σ) ⊆ dom (heap σ')
    ∧ (r.1 = None ∨ r.1 = Some l).
Proof.
  intros Hwf E t d k.
  destruct (build_spec c σ Hwf)
    as (l & obj & obj' & r1 & σ1 & E1 & Hslot & Hr & Hh & Hq & Hwf').
  fold t d k in Hslot, Hq. rewrite E in E1. injection E1 as -> <-.
  exists l. split; [exact Hq|].
  split; [rewrite Hq; destruct d; reflexivity|].
  split; [rewrite Hq; destruct d; reflexivity|].
  split; [intros t' d' Hne; rewrite Hq, get_set_slot, pool_set_key;
          destruct (decide _); [contradiction|reflexivity]|].
  split; [intros l' Hne; rewrite Hh; apply lookup_insert_ne; congruence|].
  split; [rewrite Hh; apply dom_insert_subseteq|].
  destruct r1; simpl; auto.
Qed.

(** X5.  On an iterator whose pooled pointers all point to objects, no
    sequence of builds dereferences a nil or dangling pointer: every call
    returns, with a cursor or an error and not both, and the pool is valid
    again afterwards. *)
Theorem builds_never_panic (cs : list call) (σ : state) :
  wf σ →
  ∃ rs σ',
    builds cs σ = Some (rs, σ')
    ∧ length rs = length cs
    ∧ Forall cursor_xor_error rs
    ∧ wf σ'.
Proof.
  revert σ. induction cs as [|c cs IH]; intros σ Hwf; simpl.
  - exists [], σ. auto.
  - destruct (build_spec c σ Hwf)
      as (l & obj & obj' & r & σ1 & -> & _ & _ & _ & _ & Hwf1).
    simpl. destruct (IH σ1 Hwf1) as (rs & σ2 & -> & Hlen & Hall & Hwf2).
    simpl. exists (result_of l r :: rs), σ2. split; [reflexivity|].
    split; [simpl; congruence|]. split; [|exact Hwf2].
    constructor; [|exact Hall]. destruct r; exact I.
Qed.

(** *** The pool holds at most ten cursors *)

Lemma elem_of_pointers (q0 : arrayCursorIterator) (l : nat) :
  l ∈ pointers q0 ↔ ∃ t d, get t (pool d q0) = Some l.
Proof.
  unfold pointers. rewrite elem_of_app, !list_elem_of_omap. split.
  - intros [(t & _ & Ht)|(t & _ & Ht)]; [exists t, true|exists t, false];
      exact Ht.
  - intros (t & [|] & Ht); [left|right]; exists t;
      (split; [destruct t; unfold kinds; set_solver|exact Ht]).
Qed.

Lemma omap_length_le {A B} (f : A → option B) (l : list A) :
  length (omap f l) ≤ length l.
Proof.
  induction l as [|x l IH]; simpl; [lia|].
  change (list_omap A B f l) with (omap f l).
  destruct (f x); simpl; lia.
Qed.

Lemma pointers_length (q0 : arrayCursorIterator) : length (pointers q0) ≤ 10.
Proof.
  unfold pointers. rewrite length_app.
  pose proof (omap_length_le (λ t, get t (asc q0)) kinds).
  pose proof (omap_length_le (λ t, get t (desc q0)) kinds).
  unfold kinds in *. simpl length in *. lia.
Qed.

Lemma size_list_to_set_le (l : list nat) :
  size (list_to_set l : gset nat) ≤ length l.
Proof.
  induction l as [|x l IH].
  - change (size (∅ : gset nat) ≤ 0). rewrite size_empty. lia.
  - rewrite list_to_set_cons. simpl length.
    destruct (decide (x ∈ (list_to_set l : gset nat))) as [Hin|Hout].
    + replace ({[x]} ∪ list_to_set l : gset nat) with (list_to_set l : gset nat)
        by (apply set_eq; intros y; rewrite elem_of_union, elem_of_singleton;
            split; [auto|intros [->|?]; assumption]).
      lia.
    + rewrite size_union, size_singleton; [lia|].
      intros y Hy1 Hy2. apply elem_of_singleton in Hy1. congruence.
Qed.

Lemma build_keeps_pool (c : call) (σ σ' : state) (r : result) :
  wf σ → no_alias σ → owned σ →
  build c σ = Some (r, σ') →
  wf σ' ∧ no_alias σ' ∧ owned σ'.
Proof.
  intros Hwf Hna Hown E.
  destruct (build_spec c σ Hwf)
    as (l & obj & obj' & r1 & σ1 & E1 & Hslot & Hr & Hh & Hq & Hwf').
  rewrite E in E1. injection E1 as _ <-.
  set (t := call_kind c) in *. set (d := Ascending (call_opt c)) in *.
  assert (Hother : ∀ t' d', get t' (pool d' (q σ)) = Some l →
                             t' = t ∧ d' = d).
  { intros t' d' Hg. destruct Hslot as [(Hn & Hl & _)|(Hs & _)].
    - destruct (Hwf t' d' l Hg) as [o Ho]. congruence.
    - exact (Hna t' d' t d l Hg Hs). }
  split; [exact Hwf'|]. split.
  - intros t1 d1 t2 d2 l1 H1 H2. rewrite Hq, get_set_slot in H1, H2.
    destruct (decide (t1 = t ∧ d1 = d)) as [[-> ->]|N1];
      destruct (decide (t2 = t ∧ d2 = d)) as [[-> ->]|N2].
    + auto.
    + injection H1 as <-. exfalso. apply N2. exact (Hother t2 d2 H2).
    + injection H2 as <-. exfalso. apply N1. exact (Hother t1 d1 H1).
    + exact (Hna t1 d1 t2 d2 l1 H1 H2).
  - intros l' Hl'. rewrite Hh in Hl'.
    destruct (decide (l' = l)) as [->|Hne].
    + exists t, d. rewrite Hq, get_set_slot.
      destruct (decide _) as [_|N]; [reflexivity|]. exfalso. apply N. auto.
    + rewrite lookup_insert_ne in Hl' by congruence.
      destruct (Hown l' Hl') as (t' & d' & Hg). exists t', d'.
      rewrite Hq, get_set_slot. destruct (decide _) as [[-> ->]|_]; [|exact Hg].
      destruct Hslot as [(Hn & _)|(Hs & _)]; congruence.
Qed.

(** X6.  Start from a pool in which no two slots share a cursor and every
    cursor object belongs to a slot, as in an iterator that has built
    nothing yet.  Then after any sequence of builds the same holds: cursors
    of different value types or directions are different objects, and at
    most ten cursor objects exist, however many builds were made. *)
Theorem pool_has_at_most_ten_cursors (cs : list call) (σ : state) :
  wf σ → no_alias σ → owned σ →
  ∃ rs σ',
    builds cs σ = Some (rs, σ')
    ∧ no_alias σ'
    ∧ owned σ'
    ∧ size (dom (heap σ')) ≤ 10.
Proof.
  intros Hwf Hna Hown.
  destruct (builds_total cs σ Hwf) as (rs & σ' & E & _).
  exists rs, σ'. split; [exact E|].
  assert (G : wf σ' ∧ no_alias σ' ∧ owned σ').
  { clear -Hwf Hna Hown E. revert σ rs Hwf Hna Hown E.
    induction cs as [|c cs IH]; intros σ rs Hwf Hna Hown E; simpl in E.
    - injection E as _ <-. auto.
    - destruct (tsm1.build Ascending SeekTime StopTime seriesFieldKeyBytes
                  Cache_Values Engine_KeyCursor newArrayCursor reset c σ)
        as [[r σ1]|] eqn:E1; simpl in E; [|discriminate].
      destruct (tsm1.builds Ascending SeekTime StopTime seriesFieldKeyBytes
                  Cache_Values Engine_KeyCursor newArrayCursor reset cs σ1)
        as [[rs1 σ2]|] eqn:E2; simpl in E; [|discriminate].
      injection E as _ <-.
      destruct (build_keeps_pool c σ σ1 r Hwf Hna Hown E1) as (W1 & N1 & O1).
      exact (IH σ1 rs1 W1 N1 O1 E2). }
  destruct G as (_ & Hna' & Hown'). split; [exact Hna'|]. split; [exact Hown'|].
  assert (Hsub : dom (heap σ') ⊆ list_to_set (pointers (q σ'))).
  { intros l Hl. apply elem_of_list_to_set, elem_of_pointers, Hown'.
    apply elem_of_dom, Hl. }
  pose proof (subseteq_size _ _ Hsub).
  pose proof (size_list_to_set_le (pointers (q σ'))).
  pose proof (pointers_length (q σ')). lia.
Qed.

(** X7.  A failed [reset] is not rolled back: after a failed build the
    cursor object of the slot is as the failing [reset] left it, and the
    next build for that value type and direction calls [reset] on that very
    object and returns according to what this [reset] returns. *)
Theorem failed_reset_is_kept (c c' : call) (σ σ' : state) (er : Err) :
  wf σ →
  build c σ = Some ((None, Some er), σ') →
  call_kind c' = call_kind c →
  Ascending (call_opt c') = Ascending (call_opt c) →
  let t := call_kind c in
  let d := Ascending (call_opt c) in
  ∃ l obj obj',
    (get t (pool d (q σ)) = None ∧ obj = newArrayCursor t d
     ∨ get t (pool d (q σ)) = Some l ∧ heap σ !! l = Some obj)
    ∧ reset_of t σ c obj = (obj', Some er)
    ∧ heap σ' !! l = Some obj'
    ∧ ∃ σ3,
        build c' σ'
        = Some (result_of l (reset_of t σ' c' obj').2, σ3)
        ∧ heap σ3 !! l = Some (reset_of t σ' c' obj').1.
Proof.
  intros Hwf E Ht Hd t d.
  destruct (build_spec c σ Hwf)
    as (l & obj & obj' & r & σ1 & E1 & Hslot & Hr & Hh & Hq & Hwf').
  fold t d in Hslot, Hr, Hq. rewrite E in E1. injection E1 as Hres <-.
  assert (r = Some er) as -> by (destruct r; simpl in Hres; congruence).
  assert (Ho' : heap σ' !! l = Some obj')
    by (rewrite Hh; apply lookup_insert_eq).
  assert (Hg' : get (call_kind c') (pool (Ascending (call_opt c')) (q σ'))
                = Some l).
  { rewrite Ht, Hd, Hq, get_set_slot.
    destruct (decide _) as [_|N]; [reflexivity|]. exfalso. apply N. auto. }
  exists l, obj, obj'.
  split; [destruct Hslot as [(? & _ & ?)|?]; auto|].
  split; [exact Hr|]. split; [exact Ho'|].
  destruct (build_populated c' σ' l Hwf' Hg')
    as (o & o' & r2 & σ3 & E3 & Ho & Hr3 & Ho3 & _).
  assert (o = obj') as -> by congruence.
  rewrite Ht in Hr3. fold t in Hr3.
  exists σ3. rewrite Hr3. simpl. split; [exact E3|exact Ho3].
Qed.

End ArrayCursorIterator.

(** *** The theorems at the example engine *)

Lemma ex_new_iterator_wf : wf ex_new_iterator.
Proof. intros t d l Hg. destruct t, d; discriminate Hg. Qed.

Example ex_bad_fails :
  ex_build ex_bad ex_new_iterator = Some ((None, Some 5), ex_after_bad).
Proof. vm_compute. reflexivity. Qed.

Example ex_good_after_bad :
  (λ r, r.1) <$> ex_builds [ex_bad; ex_good; ex_good] ex_new_iterator
  = Some [(None, Some 5); (Some 0, None); (Some 0, None)].
Proof. vm_compute. reflexivity. Qed.

Lemma pooled_cursor_is_reused_witness :
  wf ex_new_iterator
  ∧ ∃ r σ' l,
      ex_build ex_good ex_new_iterator = Some (r, σ')
      ∧ get KFloat (pool true (q σ')) = Some l
      ∧ heap ex_new_iterator !! l = None
      ∧ (r.2 = None → r.1 = Some l)
      ∧ ∀ r' σ3, ex_build ex_good σ' = Some (r', σ3) → r'.2 = None →
          r'.1 = Some l ∧ dom (heap σ3) = dom (heap σ').
Proof.
  split; [exact ex_new_iterator_wf|].
  destruct (pooled_cursor_is_reused ex_Ascending ex_SeekTime ex_StopTime
              ex_seriesFieldKeyBytes ex_Cache_Values ex_KeyCursor
              ex_newArrayCursor ex_reset ex_good ex_new_iterator
              ex_new_iterator_wf)
    as (r & σ' & l & E & G & Hn & _ & Hr & Hlater).
  exists r, σ', l. split; [exact E|]. split; [exact G|].
  split; [exact (proj1 (Hn eq_refl))|]. split; [exact Hr|].
  intros r' σ3 E' Hok.
  destruct (Hlater [] [] σ' ex_good r' σ3 eq_refl eq_refl eq_refl E' Hok)
    as (H1 & H2 & _).
  split; assumption.
Defined.

Lemma build_returns_error_or_cursor_witness :
  wf ex_new_iterator
  ∧ ∃ res σ',
      ex_build ex_bad ex_new_iterator = Some (res, σ')
      ∧ ¬ (is_Some res.1 ∧ is_Some res.2).
Proof.
  split; [exact ex_new_iterator_wf|].
  destruct (build_returns_error_or_cursor ex_Ascending ex_SeekTime ex_StopTime
              ex_seriesFieldKeyBytes ex_Cache_Values ex_KeyCursor
              ex_newArrayCursor ex_reset ex_bad ex_new_iterator
              ex_new_iterator_wf)
    as (l & obj & obj' & r & res & σ' & E & _ & _ & _ & _ & Hx).
  exists res, σ'. split; [exact E|exact Hx].
Defined.

(** C10 (as stated) fails.  The failed build [ex_bad] on an iterator that
    has built nothing leaves the key it built, name 1 and field 2, in the
    iterator's key buffer, which was empty: whatever pointer one puts in
    the slot of the iterator before the build, the iterator after the
    build is another. *)
Lemma failed_build_rewrites_key_buffer :
  wf ex_new_iterator
  ∧ ex_build ex_bad ex_new_iterator = Some ((None, Some 5), ex_after_bad)
  ∧ key (q ex_new_iterator) = []
  ∧ key (q ex_after_bad) = [1; 2]
  ∧ ∀ p, q ex_after_bad ≠ set_slot KFloat true p (q ex_new_iterator).
Proof.
  split; [intros t d l Hg; destruct t, d; discriminate Hg|].
  split; [vm_compute; reflexivity|]. split; [reflexivity|].
  split; [reflexivity|]. intros p Hp.
  apply (f_equal key) in Hp. vm_compute in Hp. discriminate Hp.
Qed.

Lemma failed_build_keeps_slot_witness :
  wf ex_new_iterator
  ∧ ex_build ex_bad ex_new_iterator = Some ((None, Some 5), ex_after_bad)
  ∧ ∃ l,
      get KFloat (pool true (q ex_after_bad)) = Some l
      ∧ heap ex_new_iterator !! l = None
      ∧ q ex_after_bad
        = set_slot KFloat true (Some l)
            (set_key (ex_seriesFieldKeyBytes (key (q ex_new_iterator)) 1 tt 2)
               (q ex_new_iterator))
      ∧ e (q ex_after_bad) = e (q ex_new_iterator)
      ∧ (∀ t' d', ¬ (t' = KFloat ∧ d' = true) →
         get t' (pool d' (q ex_after_bad))
         = get t' (pool d' (q ex_new_iterator)))
      ∧ ∃ r' σ3,
          ex_build ex_good ex_after_bad = Some (r', σ3)
          ∧ get KFloat (pool true (q σ3)) = Some l
          ∧ dom (heap σ3) = dom (heap ex_after_bad).
Proof.
  assert (E : ex_build ex_bad ex_new_iterator
              = Some ((None, Some 5), ex_after_bad))
    by (vm_compute; reflexivity).
  split; [exact ex_new_iterator_wf|]. split; [exact E|].
  destruct (failed_build_keeps_slot ex_Ascending ex_SeekTime ex_StopTime
              ex_seriesFieldKeyBytes ex_Cache_Values ex_KeyCursor
              ex_newArrayCursor ex_reset ex_bad ex_new_iterator ex_after_bad 5
              ex_new_iterator_wf E)
    as (l & G & Hn & _ & Hq & _ & He & Hframe & _ & Hlater).
  exists l. split; [exact G|]. split; [exact (Hn eq_refl)|].
  split; [exact Hq|]. split; [exact He|]. split; [exact Hframe|].
  destruct (Hlater [] [] ex_after_bad ex_good eq_refl eq_refl eq_refl)
    as (r' & σ3 & E3 & G3 & D3 & _).
  exists r', σ3. split; [exact E3|]. split; [exact G3|exact D3].
Defined.

(** *** The further theorems at the example engine *)

Lemma ex_new_iterator_no_alias : no_alias ex_new_iterator.
Proof. intros t d t' d' l Hg. destruct t, d; discriminate Hg. Qed.

Lemma ex_new_iterator_owned : owned ex_new_iterator.
Proof.
  intros l [o Ho]. simpl in Ho. rewrite lookup_empty in Ho. discriminate.
Qed.

Lemma build_touches_one_slot_witness :
  wf ex_new_iterator
  ∧ ex_build ex_bad ex_new_iterator = Some ((None, Some 5), ex_after_bad)
  ∧ ∃ l,
      q ex_after_bad
      = set_slot KFloat true (Some l)
          (set_key (ex_seriesFieldKeyBytes (key (q ex_new_iterator)) 1 tt 2)
             (q ex_new_iterator))
      ∧ (∀ l', l' ≠ l → heap ex_after_bad !! l' = heap ex_new_iterator !! l')
      ∧ dom (heap ex_new_iterator) ⊆ dom (heap ex_after_bad).
Proof.
  assert (E : ex_build ex_bad ex_new_iterator
              = Some ((None, Some 5), ex_after_bad))
    by (vm_compute; reflexivity).
  split; [exact ex_new_iterator_wf|]. split; [exact E|].
  destruct (build_touches_one_slot ex_Ascending ex_SeekTime ex_StopTime
              ex_seriesFieldKeyBytes ex_Cache_Values ex_KeyCursor
              ex_newArrayCursor ex_reset ex_bad ex_new_iterator ex_after_bad
              (None, Some 5) ex_new_iterator_wf E)
    as (l & Hq & _ & _ & _ & Hh & Hd & _).
  exists l. split; [exact Hq|]. split; [exact Hh|exact Hd].
Defined.

Lemma builds_never_panic_witness :
  wf ex_new_iterator
  ∧ ∃ rs σ',
      ex_builds [ex_bad; ex_good; ex_bad] ex_new_iterator = Some (rs, σ')
      ∧ length rs = 3
      ∧ Forall cursor_xor_error rs
      ∧ wf σ'.
Proof.
  split; [exact ex_new_iterator_wf|].
  exact (builds_never_panic ex_Ascending ex_SeekTime ex_StopTime
           ex_seriesFieldKeyBytes ex_Cache_Values ex_KeyCursor
           ex_newArrayCursor ex_reset [ex_bad; ex_good; ex_bad]
           ex_new_iterator ex_new_iterator_wf).
Defined.

Lemma pool_has_at_most_ten_cursors_witness :
  wf ex_new_iterator ∧ no_alias ex_new_iterator ∧ owned ex_new_iterator
  ∧ ∃ rs σ',
      ex_builds [ex_good; ex_bad; ex_good] ex_new_iterator = Some (rs, σ')
      ∧ no_alias σ'
      ∧ owned σ'
      ∧ size (dom (heap σ')) ≤ 10.
Proof.
  split; [exact ex_new_iterator_wf|].
  split; [exact ex_new_iterator_no_alias|].
  split; [exact ex_new_iterator_owned|].
  exact (pool_has_at_most_ten_cursors ex_Ascending ex_SeekTime ex_StopTime
           ex_seriesFieldKeyBytes ex_Cache_Values ex_KeyCursor
           ex_newArrayCursor ex_reset [ex_good; ex_bad; ex_good]
           ex_new_iterator ex_new_iterator_wf ex_new_iterator_no_alias
           ex_new_iterator_owned).
Defined.

Lemma failed_reset_is_kept_witness :
  wf ex_new_iterator
  ∧ ex_build ex_bad ex_new_iterator = Some ((None, Some 5), ex_after_bad)
  ∧ ∃ l obj',
      heap ex_after_bad !! l = Some obj'
      ∧ ∃ σ3,
          ex_build ex_good ex_after_bad
          = Some (result_of l
                    (reset_of ex_Ascending ex_SeekTime ex_StopTime
                       ex_seriesFieldKeyBytes ex_Cache_Values ex_KeyCursor
                       ex_reset KFloat ex_after_bad ex_good obj').2, σ3)
          ∧ heap σ3 !! l
            = Some (reset_of ex_Ascending ex_SeekTime ex_StopTime
                      ex_seriesFieldKeyBytes ex_Cache_Values ex_KeyCursor
                      ex_reset KFloat ex_after_bad ex_good obj').1.
Proof.
  assert (E : ex_build ex_bad ex_new_iterator
              = Some ((None, Some 5), ex_after_bad))
    by (vm_compute; reflexivity).
  split; [exact ex_new_iterator_wf|]. split; [exact E|].
  destruct (failed_reset_is_kept ex_Ascending ex_SeekTime ex_StopTime
              ex_seriesFieldKeyBytes ex_Cache_Values ex_KeyCursor
              ex_newArrayCursor ex_reset ex_bad ex_good ex_new_iterator
              ex_after_bad 5 ex_new_iterator_wf E eq_refl eq_refl)
    as (l & obj & obj' & _ & _ & Ho' & σ3 & E3 & H3).
  exists l, obj'. split; [exact Ho'|]. exists σ3. split; [exact E3|exact H3].
Defined.

End tsm1_proofs.
